(** * gochain/miner: a proof-of-work chain of chunks

    A shallow embedding of [miner/miner.go] and the properties of its
    mining, hashing and validation operations.

    Conventions of the embedding:
    - Go's [int] is the 64-bit two's complement integer, a [Z] with the
      wrap-around written out ([int_wrap]);
    - a Go [string] is a [string] of bytes, a [[]byte] is an
      [option (list byte)], [None] being the nil slice;
    - a [*Chunk] is a location in a store of chunks ([gmap loc Chunk]);
      methods with a value receiver take the copied [Chunk], methods with a
      pointer receiver take the location;
    - a run-time panic is the outcome [Panic]; the unbounded loop of [Mine]
      takes fuel and yields [OutOfFuel] when it is exhausted. *)

From Stdlib Require Import ZArith List Strings.String Strings.Ascii Strings.Byte Lia Bool.
From stdpp Require Import base option gmap fin_maps.

Import ListNotations.
Local Open Scope Z_scope.

(** ** Go's [int] *)

Module GoInt.

Definition int_bits : Z := 64.
Definition int_min : Z := - 2 ^ (int_bits - 1).
Definition int_max : Z := 2 ^ (int_bits - 1) - 1.

(** The value an arithmetic result takes in an [int]. *)
Definition int_wrap (z : Z) : Z :=
  (z - int_min) mod 2 ^ int_bits + int_min.

Definition int_add (a b : Z) : Z := int_wrap (a + b).

Definition is_int (z : Z) : Prop := int_min <= z <= int_max.

End GoInt.
Export GoInt.

(** ** crypto/sha256 (FIPS 180-4), on 32-bit words held in [Z] *)

Module SHA256.

Definition mask32 : Z := 0xFFFFFFFF.
Definition w32 (x : Z) : Z := Z.land x mask32.
Definition add32 (x y : Z) : Z := w32 (x + y).
Definition not32 (x : Z) : Z := Z.lxor x mask32.
Definition rotr (n x : Z) : Z :=
  Z.lor (Z.shiftr x n) (w32 (Z.shiftl x (32 - n))).

Definition Ch (x y z : Z) : Z := Z.lxor (Z.land x y) (Z.land (not32 x) z).
Definition Maj (x y z : Z) : Z :=
  Z.lxor (Z.lxor (Z.land x y) (Z.land x z)) (Z.land y z).
Definition bsig0 (x : Z) : Z := Z.lxor (Z.lxor (rotr 2 x) (rotr 13 x)) (rotr 22 x).
Definition bsig1 (x : Z) : Z := Z.lxor (Z.lxor (rotr 6 x) (rotr 11 x)) (rotr 25 x).
Definition ssig0 (x : Z) : Z := Z.lxor (Z.lxor (rotr 7 x) (rotr 18 x)) (Z.shiftr x 3).
Definition ssig1 (x : Z) : Z := Z.lxor (Z.lxor (rotr 17 x) (rotr 19 x)) (Z.shiftr x 10).

(** The constants are the first 32 bits of the fractional parts of roots
    of the first primes: cube roots of the first 64 for [K], square roots
    of the first 8 for the initial chaining value. *)
Definition is_prime (n : Z) : bool :=
  (2 <=? n) && forallb (fun d => negb (n mod d =? 0)) (map Z.of_nat (seq 2 (Z.to_nat n - 2))).

Definition primes (count : nat) : list Z :=
  firstn count (filter is_prime (map Z.of_nat (seq 2 400))).

(** The largest number obtained from [r] by setting bits below [b] whose
    [k]-th power does not exceed [n]. *)
Fixpoint root_bits (k n : Z) (b : nat) (r : Z) : Z :=
  match b with
  | O => r
  | S b' =>
      let r' := r + 2 ^ Z.of_nat b' in
      root_bits k n b' (if r' ^ k <=? n then r' else r)
  end.

Definition frac_root (k p : Z) : Z :=
  root_bits k (p * 2 ^ (32 * k)) 40 0 mod 2 ^ 32.

Definition K : list Z := Eval vm_compute in map (frac_root 3) (primes 64).

Definition H0 : list Z := Eval vm_compute in map (frac_root 2) (primes 8).

(** The eight working variables, also the chaining value. *)
Record regs : Type := Regs { ra : Z; rb : Z; rc : Z; rd : Z; re : Z; rf : Z; rg : Z; rh : Z }.

Definition init : regs :=
  Regs (nth 0 H0 0) (nth 1 H0 0) (nth 2 H0 0) (nth 3 H0 0)
       (nth 4 H0 0) (nth 5 H0 0) (nth 6 H0 0) (nth 7 H0 0).

Definition round (r : regs) (kw : Z * Z) : regs :=
  let t1 := add32 (add32 (add32 (add32 (rh r) (bsig1 (re r))) (Ch (re r) (rf r) (rg r))) (fst kw)) (snd kw) in
  let t2 := add32 (bsig0 (ra r)) (Maj (ra r) (rb r) (rc r)) in
  Regs (add32 t1 t2) (ra r) (rb r) (rc r) (add32 (rd r) t1) (re r) (rf r) (rg r).

(** The message schedule, kept newest word first: [rev_w] holds
    W(t-1), W(t-2), ... and [n] more words are appended. *)
Fixpoint schedule (n : nat) (rev_w : list Z) : list Z :=
  match n with
  | O => rev_w
  | S n' =>
      let w := add32 (add32 (add32 (ssig1 (nth 1 rev_w 0)) (nth 6 rev_w 0))
                            (ssig0 (nth 14 rev_w 0))) (nth 15 rev_w 0) in
      schedule n' (w :: rev_w)
  end.

(** One 512-bit block, given as its sixteen big-endian words. *)
Definition compress (r : regs) (block : list Z) : regs :=
  let w := rev (schedule 48 (rev block)) in
  let r' := fold_left round (combine K w) r in
  Regs (add32 (ra r) (ra r')) (add32 (rb r) (rb r')) (add32 (rc r) (rc r')) (add32 (rd r) (rd r'))
       (add32 (re r) (re r')) (add32 (rf r) (rf r')) (add32 (rg r) (rg r')) (add32 (rh r) (rh r')).

Definition byteZ (b : byte) : Z := Z.of_N (Byte.to_N b).
Definition Zbyte (z : Z) : byte :=
  match Byte.of_N (Z.to_N (Z.land z 0xFF)) with
  | Some b => b
  | None => "000"%byte
  end.

(** [n] big-endian bytes of [z]. *)
Fixpoint be_bytes (n : nat) (z : Z) : list byte :=
  match n with
  | O => []
  | S n' => Zbyte (Z.shiftr z (8 * Z.of_nat n')) :: be_bytes n' z
  end.

Definition pad (msg : list byte) : list byte :=
  let len := Z.of_nat (List.length msg) in
  let zeros := Z.to_nat ((55 - len) mod 64) in
  msg ++ ["128"%byte] ++ repeat "000"%byte zeros ++ be_bytes 8 (8 * len).

(** Big-endian words of a byte string; a trailing partial word is dropped
    (there is none after [pad]). *)
Fixpoint words (bs : list byte) : list Z :=
  match bs with
  | b0 :: b1 :: b2 :: b3 :: rest =>
      (Z.shiftl (byteZ b0) 24 + Z.shiftl (byteZ b1) 16 + Z.shiftl (byteZ b2) 8 + byteZ b3)
        :: words rest
  | _ => []
  end.

(** Folds [compress] over the blocks of sixteen words; [fuel] bounds the
    number of blocks. *)
Fixpoint blocks (fuel : nat) (r : regs) (ws : list Z) : regs :=
  match fuel, ws with
  | S fuel', _ :: _ => blocks fuel' (compress r (firstn 16 ws)) (skipn 16 ws)
  | _, _ => r
  end.

Definition digest (r : regs) : list byte :=
  be_bytes 4 (ra r) ++ be_bytes 4 (rb r) ++ be_bytes 4 (rc r) ++ be_bytes 4 (rd r) ++
  be_bytes 4 (re r) ++ be_bytes 4 (rf r) ++ be_bytes 4 (rg r) ++ be_bytes 4 (rh r).

(** [h := sha256.New(); h.Write(msg); h.Sum(nil)] *)
Definition sum256 (msg : list byte) : list byte :=
  let ws := words (pad msg) in
  digest (blocks (List.length ws) init ws).

End SHA256.

(** ** The library functions the package calls *)

Module GoLib.

Definition digit_char (d : Z) : ascii := ascii_of_N (48 + Z.to_N d).

(** Decimal digits of a non-negative number, most significant first. *)
Fixpoint digits (fuel : nat) (n : Z) (acc : string) : string :=
  let acc' := String (digit_char (n mod 10)) acc in
  match fuel with
  | O => acc'
  | S fuel' => if n <? 10 then acc' else digits fuel' (n / 10) acc'
  end.

(** [strconv.Itoa] *)
Definition Itoa (i : Z) : string :=
  if i <? 0
  then String "-"%char (digits (Z.to_nat (Z.log2 (- i))) (- i) EmptyString)
  else digits (Z.to_nat (Z.log2 i)) i EmptyString.

Definition hex_char (n : Z) : ascii :=
  if n <? 10 then ascii_of_N (48 + Z.to_N n) else ascii_of_N (87 + Z.to_N n).

(** [hex.EncodeToString]: two lowercase digits a byte. *)
Fixpoint EncodeToString (bs : list byte) : string :=
  match bs with
  | [] => EmptyString
  | b :: rest =>
      String (hex_char (Z.shiftr (SHA256.byteZ b) 4))
        (String (hex_char (Z.land (SHA256.byteZ b) 15)) (EncodeToString rest))
  end.

Fixpoint replicate_char (n : nat) (c : ascii) : string :=
  match n with
  | O => EmptyString
  | S n' => String c (replicate_char n' c)
  end.

(** [fmt.Sprintf("%0*d", wid, 0)]. The verb always writes the digit of 0;
    a width beyond a million in size is refused with a marker; a negative
    width left-justifies, which pads with spaces; otherwise zeros are
    added on the left up to the width. *)
Definition Sprintf_pad (wid : Z) : string :=
  if (1000000 <? wid) || (wid <? -1000000) then "%!(BADWIDTH)0"%string
  else if wid <? 0 then String "0"%char (replicate_char (Z.to_nat (- wid) - 1) " "%char)
  else (replicate_char (Z.to_nat wid - 1) "0"%char ++ "0")%string.

(** The slice expression [s[:hi]] on a string; out of range it panics,
    here [None]. *)
Definition slice_to (s : string) (hi : Z) : option string :=
  if (hi <? 0) || (Z.of_nat (String.length s) <? hi) then None
  else Some (substring 0 (Z.to_nat hi) s).

Fixpoint eq_bytes (a b : list byte) : bool :=
  match a, b with
  | [], [] => true
  | x :: a', y :: b' => Byte.eqb x y && eq_bytes a' b'
  | _, _ => false
  end.

(** A nil slice and an empty one have the same contents. *)
Definition slice_contents (s : option (list byte)) : list byte :=
  match s with Some bs => bs | None => [] end.

(** [bytes.Equal] *)
Definition bytes_Equal (a b : option (list byte)) : bool :=
  eq_bytes (slice_contents a) (slice_contents b).

End GoLib.

(** ** time.Time and encoding/json, as far as a chunk is marshalled *)

Module GoJSON.

Import SHA256 GoLib.

Definition bytes (s : string) : list byte := list_byte_of_string s.
Definition quote : byte := Byte.x22.

(** *** [[]byte]: base64, standard alphabet, padded; a nil slice is [null] *)

Definition b64_char (n : Z) : byte :=
  if n <? 26 then Zbyte (65 + n)
  else if n <? 52 then Zbyte (71 + n)
  else if n <? 62 then Zbyte (n - 4)
  else if n =? 62 then "+"%byte else "/"%byte.

Definition b64_pad : byte := "="%byte.

Fixpoint base64 (bs : list byte) : list byte :=
  match bs with
  | [] => []
  | [a] =>
      let n := Z.shiftl (byteZ a) 16 in
      [b64_char (Z.shiftr n 18); b64_char (Z.land (Z.shiftr n 12) 63); b64_pad; b64_pad]
  | [a; b] =>
      let n := Z.lor (Z.shiftl (byteZ a) 16) (Z.shiftl (byteZ b) 8) in
      [b64_char (Z.shiftr n 18); b64_char (Z.land (Z.shiftr n 12) 63);
       b64_char (Z.land (Z.shiftr n 6) 63); b64_pad]
  | a :: b :: c :: rest =>
      let n := Z.lor (Z.lor (Z.shiftl (byteZ a) 16) (Z.shiftl (byteZ b) 8)) (byteZ c) in
      b64_char (Z.shiftr n 18) :: b64_char (Z.land (Z.shiftr n 12) 63)
        :: b64_char (Z.land (Z.shiftr n 6) 63) :: b64_char (Z.land n 63) :: base64 rest
  end.

Definition json_bytes (s : option (list byte)) : list byte :=
  match s with
  | None => bytes "null"
  | Some bs => quote :: base64 bs ++ [quote]
  end.

(** *** [string]: the encoder's escaping, with HTML escaping on *)

Definition hex_byte (n : Z) : byte := byte_of_ascii (hex_char n).

Definition escape_ascii (b : byte) : list byte :=
  let z := byteZ b in
  if (z =? 0x22) || (z =? 0x5C) then ["\"%byte; b]
  else if z =? 0x08 then bytes "\b"
  else if z =? 0x0C then bytes "\f"
  else if z =? 0x0A then bytes "\n"
  else if z =? 0x0D then bytes "\r"
  else if z =? 0x09 then bytes "\t"
  else if (z <? 0x20) || (z =? 0x3C) || (z =? 0x3E) || (z =? 0x26)
  then bytes "\u00" ++ [hex_byte (Z.shiftr z 4); hex_byte (Z.land z 15)]
  else [b].

(** Size of a well-formed UTF-8 sequence by its first byte, with the
    range its second byte must lie in. *)
Definition utf8_first (z : Z) : option (nat * Z * Z) :=
  if (0xC2 <=? z) && (z <=? 0xDF) then Some (2%nat, 0x80, 0xBF)
  else if z =? 0xE0 then Some (3%nat, 0xA0, 0xBF)
  else if z =? 0xED then Some (3%nat, 0x80, 0x9F)
  else if (0xE1 <=? z) && (z <=? 0xEF) then Some (3%nat, 0x80, 0xBF)
  else if z =? 0xF0 then Some (4%nat, 0x90, 0xBF)
  else if (0xF1 <=? z) && (z <=? 0xF3) then Some (4%nat, 0x80, 0xBF)
  else if z =? 0xF4 then Some (4%nat, 0x80, 0x8F)
  else None.

Definition between (lo hi : Z) (b : byte) : bool :=
  (lo <=? byteZ b) && (byteZ b <=? hi).

(** [utf8.DecodeRuneInString], its size only: [None] is the error rune
    of width one. *)
Definition rune_size (b0 : byte) (rest : list byte) : option nat :=
  match utf8_first (byteZ b0) with
  | None => None
  | Some (n, lo, hi) =>
      match firstn (n - 1) rest with
      | b1 :: more =>
          if (List.length more =? n - 2)%nat && between lo hi b1 && forallb (between 0x80 0xBF) more
          then Some n else None
      | [] => None
      end
  end.

(** U+2028 and U+2029 are E2 80 A8 and E2 80 A9. *)
Definition line_separator (b0 : byte) (rest : list byte) : option byte :=
  match rest with
  | b1 :: b2 :: _ =>
      if (byteZ b0 =? 0xE2) && (byteZ b1 =? 0x80) && between 0xA8 0xA9 b2
      then Some (hex_byte (Z.land (byteZ b2) 15)) else None
  | _ => None
  end.

(** [skip] bytes of a sequence already decided are passed over, copied
    when [keep] holds. *)
Fixpoint escape (skip : nat) (keep : bool) (bs : list byte) : list byte :=
  match bs with
  | [] => []
  | b :: rest =>
      match skip with
      | S k => (if keep then [b] else []) ++ escape k keep rest
      | O =>
          if byteZ b <? 0x80 then escape_ascii b ++ escape 0 true rest
          else match rune_size b rest with
               | None => bytes "\ufffd" ++ escape 0 true rest
               | Some n =>
                   match line_separator b rest with
                   | Some d => bytes "\u202" ++ [d] ++ escape (n - 1) false rest
                   | None => b :: escape (n - 1) true rest
                   end
               end
      end
  end.

Definition json_string (s : string) : list byte :=
  quote :: escape 0 true (bytes s) ++ [quote].

Definition json_int (i : Z) : list byte := bytes (Itoa i).

(** *** [time.Time], as the civil reading its marshalling prints *)

Record Time : Type := mkTime {
  year : Z; month : Z; day : Z;
  hour : Z; minute : Z; second : Z; nanosecond : Z;
  zone_offset : Z  (* seconds east of UTC *)
}.

(** The zero [Time]: January 1, year 1, 00:00:00 UTC. *)
Definition zeroTime : Time := mkTime 1 1 1 0 0 0 0 0.

(** [n] in at least [w] decimal digits. *)
Definition pad_int (w : nat) (n : Z) : string :=
  let s := Itoa n in
  (replicate_char (w - String.length s) "0"%char ++ s)%string.

(** Nine digits of the nanosecond with the trailing zeros removed. *)
Fixpoint trim_zeros (fuel : nat) (n : Z) (w : nat) : string :=
  match fuel with
  | O => pad_int w n
  | S fuel' => if n mod 10 =? 0 then trim_zeros fuel' (n / 10) (w - 1) else pad_int w n
  end.

Definition fraction (ns : Z) : string :=
  if ns =? 0 then EmptyString else String "."%char (trim_zeros 9 ns 9).

Definition zone (off : Z) : string :=
  if off =? 0 then "Z"%string
  else
    let m := Z.quot off 60 in
    String (if m <? 0 then "-"%char else "+"%char)
      (pad_int 2 (Z.abs m / 60) ++ ":" ++ pad_int 2 (Z.abs m mod 60))%string.

Definition RFC3339Nano (t : Time) : string :=
  (pad_int 4 (year t) ++ "-" ++ pad_int 2 (month t) ++ "-" ++ pad_int 2 (day t) ++ "T" ++
   pad_int 2 (hour t) ++ ":" ++ pad_int 2 (minute t) ++ ":" ++ pad_int 2 (second t) ++
   fraction (nanosecond t) ++ zone (zone_offset t))%string.

(** [Time.MarshalJSON] refuses a year outside [0,9999] and a zone of 24
    hours or more. *)
Definition json_time (t : Time) : option (list byte) :=
  if (year t <? 0) || (9999 <? year t) then None
  else if 24 <=? Z.abs (Z.quot (zone_offset t) 60) / 60 then None
  else Some (quote :: bytes (RFC3339Nano t) ++ [quote]).

Definition key (name : string) : list byte :=
  quote :: bytes name ++ [quote; ":"%byte].

End GoJSON.

(** ** The store of chunks and the outcome of a call *)

Module Store.

(** The address of a chunk; a [*Chunk] is a [ptr], [None] being nil. *)
Definition loc : Type := positive.
Definition ptr : Type := option loc.

Inductive result (A : Type) : Type :=
| Done (a : A)   (* returned *)
| Panic          (* run-time panic: nil dereference, slice out of range *)
| OutOfFuel.     (* the fuel of a loop ran out *)
Arguments Done {A} a.
Arguments Panic {A}.
Arguments OutOfFuel {A}.

Section Monad.
Context {Obj : Type}.

Definition M (A : Type) : Type := gmap loc Obj -> result (A * gmap loc Obj).

Definition ret {A} (a : A) : M A := fun h => Done (a, h).
Definition panic {A} : M A := fun _ => Panic.
Definition out_of_fuel {A} : M A := fun _ => OutOfFuel.

Definition bind {A B} (m : M A) (k : A -> M B) : M B :=
  fun h =>
    match m h with
    | Done (a, h') => k a h'
    | Panic => Panic
    | OutOfFuel => OutOfFuel
    end.

(** [*p] *)
Definition load (p : ptr) : M Obj :=
  fun h =>
    match p with
    | Some l => match h !! l with Some o => Done (o, h) | None => Panic end
    | None => Panic
    end.

(** [p.f = v], as the update [upd] of the object. *)
Definition modify (p : ptr) (upd : Obj -> Obj) : M unit :=
  fun h =>
    match p with
    | Some l => match h !! l with Some o => Done (tt, <[l := upd o]> h) | None => Panic end
    | None => Panic
    end.

(** [new(T)], and a local variable whose address is taken. *)
Definition alloc (o : Obj) : M loc :=
  fun h => let l := fresh (dom h) in Done (l, <[l := o]> h).

End Monad.

Arguments M : clear implicits.

End Store.
Export Store.

Notation "'let*' x ':=' m 'in' k" := (bind m (fun x => k))
  (at level 10, x pattern, m at level 100, k at level 200).
Notation "m ';;' k" := (bind m (fun _ => k))
  (at level 100, k at level 200, right associativity).

(** ** package miner *)

Module Miner.

Import SHA256 GoLib GoJSON.

Record Chunk : Type := mkChunk {
  Parent : ptr;
  Hash : option (list byte);
  Index : Z;
  PoW : Z;
  Difficulty : Z;
  Data : string;
  Timestamp : Time
}.

(** The zero value, [new(Chunk)] points to one. *)
Definition zeroChunk : Chunk := mkChunk None None 0 0 0 EmptyString zeroTime.

Definition set_Hash (v : option (list byte)) (ck : Chunk) : Chunk :=
  mkChunk (Parent ck) v (Index ck) (PoW ck) (Difficulty ck) (Data ck) (Timestamp ck).

Definition set_PoW (v : Z) (ck : Chunk) : Chunk :=
  mkChunk (Parent ck) (Hash ck) (Index ck) v (Difficulty ck) (Data ck) (Timestamp ck).

Abbreviation heap := (gmap loc Chunk).
Abbreviation Go := (M Chunk).

(** [New]. A [Block] only wraps its chunk, so the previous block is the
    pointer to its chunk; [now] is the reading of [time.Now()]. *)
Definition New (blk : ptr) (dif : Z) (data : string) (now : Time) : Go loc :=
  match blk with
  | Some _ =>
      let* pck := load blk in
      alloc (mkChunk blk None (int_add (Index pck) 1) 0 dif data now)
  | None => alloc (mkChunk None None 0 0 dif data now)
  end.

Definition IsMined (ck : Chunk) : bool := 0 <? PoW ck.

Definition IsGenesis (ck : Chunk) : bool :=
  match Parent ck with None => true | Some _ => false end.

Definition GetParent (ck : Chunk) : Go ptr :=
  if IsGenesis ck
  then let* l := alloc zeroChunk in ret (Some l)
  else ret (Parent ck).

(** The object the marshaller writes: the parent's hash, then the
    fields of the chunk in their order, [Parent] left out by its tag.
    [None] is the error of a timestamp that cannot be written. *)
Definition marshal (ParentHash : option (list byte)) (ck : Chunk) : option (list byte) :=
  match json_time (Timestamp ck) with
  | None => None
  | Some ts =>
      Some (bytes "{" ++ key "parent_hash" ++ json_bytes ParentHash ++
            bytes "," ++ key "hash" ++ json_bytes (Hash ck) ++
            bytes "," ++ key "index" ++ json_int (Index ck) ++
            bytes "," ++ key "pow" ++ json_int (PoW ck) ++
            bytes "," ++ key "difficulty" ++ json_int (Difficulty ck) ++
            bytes "," ++ key "data" ++ json_string (Data ck) ++
            bytes "," ++ key "timestamp" ++ ts ++ bytes "}")
  end.

Definition MarshalJSON (ck : Chunk) : Go (option (list byte)) :=
  let* p := GetParent ck in
  let* pck := load p in
  ret (marshal (Hash pck) ck).

(** [json.Marshal] of a chunk is what its [MarshalJSON] gives (compacting
    leaves it as it is); the error is dropped and [j] is then nil. *)
Definition Encode (ck : Chunk) : Go (option (list byte)) :=
  let* j := MarshalJSON ck in
  ret j.

Definition ValidatePoW (ck : Chunk) (pow : Z) : Go bool :=
  let* p := GetParent ck in
  let* pck := load p in
  let c := (Itoa (PoW pck) ++ Itoa pow)%string in
  let sum := EncodeToString (sum256 (bytes c)) in
  let dif := Difficulty ck in
  let pad := Sprintf_pad dif in
  match slice_to sum dif with
  | Some prefix => ret (String.eqb prefix pad)
  | None => panic
  end.

Definition IsValidPoW (ck : Chunk) : Go bool := ValidatePoW ck (PoW ck).

Definition GenerateHash (ck : ptr) (save : bool) : Go (list byte) :=
  let* c := load ck in
  let osum := Hash c in
  modify ck (set_Hash None) ;;
  let* c := load ck in
  let* j := Encode c in
  let sum := sum256 (slice_contents j) in
  (if save then modify ck (set_Hash (Some sum)) else modify ck (set_Hash osum)) ;;
  ret sum.

(** The closure [re] of [IsValid]: its parameter [c] is a variable of its
    own, whose address [GenerateHash] takes. *)
Definition re (c : Chunk) : Go bool :=
  let* pc := alloc c in
  let* sum := GenerateHash (Some pc) false in
  let* c' := load (Some pc) in
  ret (bytes_Equal (Some sum) (Hash c')).

Definition IsValid (ck : Chunk) : Go bool :=
  let* pok :=
    (if negb (IsGenesis ck) then
       let* pck := GetParent ck in
       let* p1 := load pck in
       let* ok :=
         (if int_add (Index p1) 1 =? Index ck then
            let* p2 := load pck in
            let* v := IsValidPoW p2 in
            if v then let* p3 := load pck in re p3 else ret false
          else ret false) in
       ret (if Bool.eqb ok false then false else true)
     else ret true) in
  let* bok :=
    (let* ok := (if IsMined ck then re ck else ret false) in
     ret (if Bool.eqb ok false then false else true)) in
  ret (pok && bok).

(** The loop of [Mine], [fuel] iterations of it at most. *)
Fixpoint Mine_loop (fuel : nat) (ck : ptr) (pow : Z) : Go Z :=
  match fuel with
  | O => out_of_fuel
  | S fuel' =>
      let* c := load ck in
      let* ok := ValidatePoW c pow in
      if ok then ret pow else Mine_loop fuel' ck (int_add pow 1)
  end.

Definition Mine (fuel : nat) (ck : ptr) : Go Z :=
  let* pow := Mine_loop fuel ck 0 in
  modify ck (set_PoW pow) ;;
  ret pow.

End Miner.

(** ** Vocabulary of the properties *)

Module Props.

Import SHA256 GoLib GoJSON Miner.

(** The chunk a chunk's [GetParent] points to: the chunk at [Parent], or
    the zero chunk for a genesis chunk. *)
Definition parent_of (ck : Chunk) (h : heap) : option Chunk :=
  match Parent ck with
  | None => Some zeroChunk
  | Some p => h !! p
  end.

(** The store after [GetParent]: a genesis chunk has a zero chunk made. *)
Definition with_parent (ck : Chunk) (h : heap) : heap :=
  match Parent ck with
  | None => <[fresh (dom h) := zeroChunk]> h
  | Some _ => h
  end.

(** The hex digest that decides the proof of work. *)
Definition pow_digest (parent_pow pow : Z) : string :=
  EncodeToString (sum256 (bytes (Itoa parent_pow ++ Itoa pow))).

(** The comparison of [ValidatePoW], [None] where the slice panics. *)
Definition pow_check (parent_pow dif pow : Z) : option bool :=
  match slice_to (pow_digest parent_pow pow) dif with
  | Some prefix => Some (String.eqb prefix (Sprintf_pad dif))
  | None => None
  end.

(** A digit of lowercase hexadecimal. *)
Definition lowercase_hex (c : ascii) : bool :=
  existsb (Ascii.eqb c) (list_ascii_of_string "0123456789abcdef").

(** The first [n] characters of [s] are all the character 0. *)
Definition leading_zeros (n : nat) (s : string) : Prop :=
  forall i, (i < n)%nat -> String.get i s = Some "0"%char.

(** The digest of a chunk's encoding with its hash cleared, [pck] being
    the chunk its parent pointer leads to. *)
Definition content_hash (ck pck : Chunk) : list byte :=
  sum256 (slice_contents (marshal (Hash pck) (set_Hash None ck))).

(** Every parent pointer of the store leads to a chunk of the store, and
    to another chunk than its holder: the parent is the preceding chunk
    of the chain. *)
Definition well_linked (h : heap) : Prop :=
  forall l c p, h !! l = Some c -> Parent c = Some p -> p <> l /\ is_Some (h !! p).

(** A computation leaves every chunk of the store as it was. *)
Definition preserves_store {A} (m : Go A) : Prop :=
  forall h a h', m h = Done (a, h') -> h ⊆ h'.

(** [n] calls of [GenerateHash(false)] in a row, with their digests. *)
Fixpoint regenerate (n : nat) (ck : ptr) : Go (list (list byte)) :=
  match n with
  | O => ret []
  | S n' =>
      let* sum := GenerateHash ck false in
      let* sums := regenerate n' ck in
      ret (sum :: sums)
  end.

(** [n] calls of [GetParent] in a row, with the pointers returned. *)
Fixpoint parents (n : nat) (ck : Chunk) : Go (list ptr) :=
  match n with
  | O => ret []
  | S n' =>
      let* p := GetParent ck in
      let* ps := parents n' ck in
      ret (p :: ps)
  end.

(** Every parent pointer of the store leads to a chunk of the store whose
    index is one less (in [int] arithmetic): the chain as [New] links it. *)
Definition chain_linked (h : heap) : Prop :=
  forall l c p, h !! l = Some c -> Parent c = Some p ->
    exists pck, h !! p = Some pck /\ Index c = int_add (Index pck) 1.

(** A chunk with no parent, or with the parent and index of a chunk of
    the store: the zero chunk and the copies that the calls make. *)
Definition known (h : heap) (c : Chunk) : Prop :=
  Parent c = None \/
  exists l0 c0, h !! l0 = Some c0 /\ Parent c0 = Parent c /\ Index c0 = Index c.

(** [h'] is [h] with such chunks added at new addresses. *)
Definition adds_copies (h h' : heap) : Prop :=
  h ⊆ h' /\ forall l c, h' !! l = Some c -> h !! l = None -> known h c.

(** Calls that only add such chunks, whatever the store. *)
Definition copier {A} (m : Go A) : Prop :=
  forall h a h', m h = Done (a, h') -> adds_copies h h'.




(** Calls of [GenerateHash] in a row, one for each flag, with their digests. *)
Fixpoint rehash (saves : list bool) (ck : ptr) : Go (list (list byte)) :=
  match saves with
  | [] => ret []
  | save :: saves' =>
      let* sum := GenerateHash ck save in
      let* sums := rehash saves' ck in
      ret (sum :: sums)
  end.

End Props.

(** ** Chunks and stores the properties are tried on *)

Module Sample.

Import GoJSON Miner Props.

Definition t0 : Time := mkTime 2024 3 9 7 5 1 120000000 0.

(** A genesis chunk of difficulty 1, as [New(nil, 1, "a")] makes it. *)
Definition genesis1 : Chunk := mkChunk None None 0 0 1 "a" t0.
Definition store1 : heap := {[ 1%positive := genesis1 ]}.

(** A genesis chunk of difficulty 0, as [New(nil, 0, "a")] makes it. *)
Definition genesis0 : Chunk := mkChunk None None 0 0 0 "a" t0.
Definition store0 : heap := {[ 1%positive := genesis0 ]}.

(** A genesis chunk of difficulty 65, as [New(nil, 65, "a")] makes it. *)
Definition genesis65 : Chunk := mkChunk None None 0 0 65 "a" t0.
Definition store65 : heap := {[ 1%positive := genesis65 ]}.

(** A chunk of difficulty 1 on a parent whose nonce is 29: the digest of
    "290" starts with a zero, so the nonce 0 solves it. *)
Definition parent29 : Chunk := mkChunk None None 0 29 1 "a" t0.
Definition child0 : Chunk := mkChunk (Some 1%positive) None 1 0 1 "b" t0.
Definition store29 : heap := {[ 1%positive := parent29; 2%positive := child0 ]}.

(** The chain of the specification's scenario: the genesis chunk mined
    (nonce 3) and hashed, and a chunk on top of it, mined (nonce 9) and
    hashed. *)
Definition genesis_mined : Chunk := set_PoW 3 genesis1.
Definition genesis_hash : list byte := content_hash genesis_mined zeroChunk.
Definition genesis_done : Chunk := set_Hash (Some genesis_hash) genesis_mined.
Definition child_mined : Chunk := mkChunk (Some 1%positive) None 1 9 1 "b" t0.
Definition child_done : Chunk :=
  set_Hash (Some (content_hash child_mined genesis_done)) child_mined.
Definition chain : heap := {[ 1%positive := genesis_done; 2%positive := child_done ]}.

(** The same chain after the data of the child was changed. *)
Definition child_tampered : Chunk :=
  mkChunk (Parent child_done) (Hash child_done) (Index child_done) (PoW child_done)
          (Difficulty child_done) "c" (Timestamp child_done).
Definition chain_tampered : heap :=
  {[ 1%positive := genesis_done; 2%positive := child_tampered ]}.

(** The mined genesis chunk alone, and the store its first committed
    hash leaves: the zero chunk at 2 is the parent made for the encoding. *)
Definition store_mined : heap := {[ 1%positive := genesis_mined ]}.
Definition store_hashed : heap := {[ 1%positive := genesis_done; 2%positive := zeroChunk ]}.

(** A chunk that is its own parent, outside the chains [New] builds. *)
Definition own_parent : Chunk := mkChunk (Some 1%positive) None 0 0 1 "a" t0.
Definition store_loop : heap := {[ 1%positive := own_parent ]}.

(** The value and the store that a call returned. *)
Definition value_of {A} (d : A) (r : result (A * heap)) : A :=
  match r with Done (a, _) => a | _ => d end.
Definition store_of {A} (r : result (A * heap)) : heap :=
  match r with Done (_, h) => h | _ => ∅ end.

(** The genesis chunk after [Mine] with fuel 4. *)
Definition store_mined4 : heap := store_of (Mine 4 (Some 1%positive) store1).

(** The chain after [IsValid] on its second chunk. *)
Definition chain_checked : heap := store_of (IsValid child_done chain).

(** A second chunk made, mined and hashed on the finished genesis chunk. *)
Definition store_genesis_done : heap := {[ 1%positive := genesis_done ]}.
Definition store_child_new : heap :=
  store_of (New (Some 1%positive) 1 "b" t0 store_genesis_done).
Definition store_child_mined : heap := store_of (Mine 10 (Some 2%positive) store_child_new).
Definition child_hash : list byte :=
  value_of [] (GenerateHash (Some 2%positive) true store_child_mined).
Definition store_child_hashed : heap :=
  store_of (GenerateHash (Some 2%positive) true store_child_mined).

(** [child0], solved by the nonce 0, with its hash committed. *)
Definition child0_hash : list byte :=
  value_of [] (GenerateHash (Some 2%positive) true store29).
Definition store29_hashed : heap := store_of (GenerateHash (Some 2%positive) true store29).


(** A chunk whose timestamp cannot be marshalled (year 10000). *)
Definition t_late : Time := mkTime 10000 1 1 0 0 0 0 0.
Definition late : Chunk := mkChunk None None 0 5 1 "a" t_late.
Definition store_late : heap := {[ 1%positive := late ]}.

(** Chunks of difficulty 2 and -1 beside the genesis chunk of difficulty 1. *)
Definition genesis2 : Chunk := mkChunk None None 0 0 2 "a" t0.
Definition genesis_neg : Chunk := mkChunk None None 0 0 (-1) "a" t0.

(** A chunk whose parent has a difficulty out of range. *)
Definition child65 : Chunk := mkChunk (Some 1%positive) None 1 7 1 "b" t0.
Definition store_child65 : heap := {[ 1%positive := genesis65; 2%positive := child65 ]}.

End Sample.

(** * Properties *)

Import SHA256 GoLib GoJSON Miner Props.

(** ** Facts about the library functions *)

Section Library.

Lemma be_bytes_length n z : List.length (be_bytes n z) = n.
Proof. induction n as [|n IH]; simpl; [reflexivity | now rewrite IH]. Qed.

Lemma sum256_length msg : List.length (sum256 msg) = 32%nat.
Proof.
  unfold sum256, digest.
  repeat rewrite List.length_app. repeat rewrite be_bytes_length. reflexivity.
Qed.

Lemma EncodeToString_length bs :
  String.length (EncodeToString bs) = (2 * List.length bs)%nat.
Proof. induction bs as [|b bs IH]; simpl; [reflexivity | rewrite IH; lia]. Qed.

(** The digests of the standard's sample messages. *)
Example sum256_abc :
  EncodeToString (sum256 (bytes "abc")) =
  "ba7816bf8f01cfea414140de5dae2223b00361a396177a9cb410ff61f20015ad"%string.
Proof. vm_compute. reflexivity. Qed.

Example sum256_empty :
  EncodeToString (sum256 []) =
  "e3b0c44298fc1c149afbf4c8996fb92427ae41e4649b934ca495991b7852b855"%string.
Proof. vm_compute. reflexivity. Qed.

Example sum256_two_blocks :
  EncodeToString (sum256 (bytes "abcdbcdecdefdefgefghfghighijhijkijkljklmklmnlmnomnopnopq")) =
  "248d6a61d20638b8e5c026930c3e6039a33ce45964ff2167f6ecedd419db06c1"%string.
Proof. vm_compute. reflexivity. Qed.

Example Itoa_samples :
  map Itoa [0; 7; 10; 290; -1; -120; int_max; int_min] =
  ["0"; "7"; "10"; "290"; "-1"; "-120"; "9223372036854775807"; "-9223372036854775808"]%string.
Proof. vm_compute. reflexivity. Qed.

Example Sprintf_pad_samples :
  map Sprintf_pad [0; 1; 3; -3] = ["0"; "0"; "000"; "0  "]%string.
Proof. vm_compute. reflexivity. Qed.

Lemma EncodeToString_lowercase bs :
  forallb lowercase_hex (list_ascii_of_string (EncodeToString bs)) = true.
Proof.
  induction bs as [|b bs IH]; [reflexivity|].
  change (EncodeToString (b :: bs))
    with (String (hex_char (Z.shiftr (byteZ b) 4))
            (String (hex_char (Z.land (byteZ b) 15)) (EncodeToString bs))).
  cbn [list_ascii_of_string forallb]. rewrite IH, andb_true_r.
  destruct b; vm_compute; reflexivity.
Qed.

Lemma pow_digest_length ppow pow : String.length (pow_digest ppow pow) = 64%nat.
Proof. unfold pow_digest. rewrite EncodeToString_length, sum256_length. reflexivity. Qed.

Lemma replicate_char_length n c : String.length (replicate_char n c) = n.
Proof. induction n as [|n IH]; simpl; [reflexivity | now rewrite IH]. Qed.

Lemma append_String a s t : (String a s ++ t)%string = String a (s ++ t)%string.
Proof. reflexivity. Qed.

Lemma replicate_char_snoc n c :
  (replicate_char n c ++ String c EmptyString)%string = replicate_char (S n) c.
Proof.
  induction n as [|n IH]; [reflexivity|].
  change (replicate_char (S n) c) with (String c (replicate_char n c)) at 1.
  rewrite append_String, IH. reflexivity.
Qed.

Lemma Sprintf_pad_zero : Sprintf_pad 0 = "0"%string.
Proof. reflexivity. Qed.

(** A width from 1 to a million gives that many zeros. *)
Lemma Sprintf_pad_zeros wid :
  1 <= wid <= 1000000 -> Sprintf_pad wid = replicate_char (Z.to_nat wid) "0"%char.
Proof.
  intros Hw. unfold Sprintf_pad.
  destruct (Z.ltb_spec 1000000 wid); [lia|].
  destruct (Z.ltb_spec wid (-1000000)); [lia|].
  destruct (Z.ltb_spec wid 0); [lia|]. simpl.
  rewrite replicate_char_snoc. f_equal. lia.
Qed.

Lemma slice_to_Some s hi :
  0 <= hi <= Z.of_nat (String.length s) ->
  slice_to s hi = Some (substring 0 (Z.to_nat hi) s).
Proof.
  intros Hr. unfold slice_to.
  destruct (Z.ltb_spec hi 0); [lia|].
  destruct (Z.ltb_spec (Z.of_nat (String.length s)) hi); [lia|]. reflexivity.
Qed.

Lemma slice_to_None s hi :
  hi < 0 \/ Z.of_nat (String.length s) < hi -> slice_to s hi = None.
Proof.
  intros Hr. unfold slice_to.
  destruct (Z.ltb_spec hi 0); [reflexivity|].
  destruct (Z.ltb_spec (Z.of_nat (String.length s)) hi); [reflexivity | lia].
Qed.

Lemma substring_length n s :
  (n <= String.length s)%nat -> String.length (substring 0 n s) = n.
Proof.
  revert s. induction n as [|n IH]; intros [|a s] Hn; simpl in *; try reflexivity; try lia.
  rewrite IH; [reflexivity | lia].
Qed.

Lemma substring_get n s i :
  (n <= String.length s)%nat -> (i < n)%nat ->
  String.get i (substring 0 n s) = String.get i s.
Proof.
  revert s i. induction n as [|n IH]; intros [|a s] i Hn Hi; simpl in *; try lia.
  destruct i as [|i]; [reflexivity|]. apply IH; lia.
Qed.

Lemma replicate_char_get n c i :
  (i < n)%nat -> String.get i (replicate_char n c) = Some c.
Proof.
  revert i. induction n as [|n IH]; intros i Hi; [lia|].
  destruct i as [|i]; simpl; [reflexivity|]. apply IH. lia.
Qed.

(** Two strings of one length are equal when they agree at every index. *)
Lemma string_ext s t :
  String.length s = String.length t ->
  (forall i, (i < String.length s)%nat -> String.get i s = String.get i t) ->
  s = t.
Proof.
  revert t. induction s as [|a s IH]; intros [|b t] Hlen Hget; simpl in *; try discriminate.
  - reflexivity.
  - f_equal.
    + specialize (Hget 0%nat ltac:(lia)). simpl in Hget. congruence.
    + apply IH; [lia|]. intros i Hi. apply (Hget (S i)). lia.
Qed.

(** Within the digest's length and for at least one digit, the
    comparison holds exactly when the digest starts with that many zeros. *)
Lemma pow_check_zeros ppow dif pow :
  1 <= dif <= 64 ->
  exists b, pow_check ppow dif pow = Some b /\
            (b = true <-> leading_zeros (Z.to_nat dif) (pow_digest ppow pow)).
Proof.
  intros Hd. unfold pow_check.
  pose proof (pow_digest_length ppow pow) as Hlen.
  rewrite slice_to_Some by lia.
  rewrite Sprintf_pad_zeros by lia.
  eexists; split; [reflexivity|].
  rewrite String.eqb_eq. unfold leading_zeros. split.
  - intros Heq i Hi.
    rewrite <- (substring_get (Z.to_nat dif)) by lia.
    rewrite Heq. now apply replicate_char_get.
  - intros Hz. apply string_ext.
    + rewrite substring_length, replicate_char_length by lia. reflexivity.
    + intros i Hi. rewrite substring_length in Hi by lia.
      rewrite substring_get, replicate_char_get by lia. now apply Hz.
Qed.

(** With no digit asked for, the empty prefix is compared with the one
    character that the formatting of 0 always writes. *)
Lemma pow_check_difficulty_zero ppow pow : pow_check ppow 0 pow = Some false.
Proof.
  unfold pow_check. pose proof (pow_digest_length ppow pow) as Hlen.
  rewrite slice_to_Some by lia. rewrite Sprintf_pad_zero.
  change (Z.to_nat 0) with 0%nat.
  destruct (pow_digest ppow pow); reflexivity.
Qed.

(** Beyond the digest's 64 characters, and below zero, the slice panics. *)
Lemma pow_check_out_of_range ppow dif pow :
  dif < 0 \/ 64 < dif -> pow_check ppow dif pow = None.
Proof.
  intros Hd. unfold pow_check. pose proof (pow_digest_length ppow pow) as Hlen.
  rewrite slice_to_None by lia. reflexivity.
Qed.

Lemma int_add_succ z : int_min <= z < int_max -> int_add z 1 = z + 1.
Proof.
  unfold int_add, int_wrap, int_min, int_max, int_bits. simpl. intros Hz.
  rewrite Z.mod_small; lia.
Qed.

Lemma eq_bytes_refl a : eq_bytes a a = true.
Proof.
  induction a as [|x a IH]; simpl; [reflexivity|].
  rewrite IH, andb_true_r. now apply Byte.byte_dec_lb.
Qed.

Lemma eq_bytes_eq a b : eq_bytes a b = true <-> a = b.
Proof.
  split; [|intros ->; apply eq_bytes_refl].
  revert b. induction a as [|x a IH]; intros [|y b] H; simpl in H; try discriminate.
  - reflexivity.
  - apply andb_true_iff in H as [Hx Hab].
    apply Byte.byte_dec_bl in Hx. f_equal; auto.
Qed.

End Library.

(** ** What each call does to the store *)

Section Runs.

Implicit Types (h : heap) (ck c : Chunk) (l : loc).

Lemma fresh_lookup h : h !! fresh (dom h) = None.
Proof. apply not_elem_of_dom, is_fresh. Qed.

Lemma alloc_subseteq h c : h ⊆ <[fresh (dom h) := c]> h.
Proof. apply insert_subseteq, fresh_lookup. Qed.

Lemma with_parent_subseteq ck h : h ⊆ with_parent ck h.
Proof. unfold with_parent. destruct (Parent ck); [reflexivity | apply alloc_subseteq]. Qed.

Lemma bind_Done {A B} (m : Go A) (k : A -> Go B) h a h' :
  m h = Done (a, h') -> bind m k h = k a h'.
Proof. unfold bind. now intros ->. Qed.

Lemma bind_Panic {A B} (m : Go A) (k : A -> Go B) h :
  m h = Panic -> bind m k h = Panic.
Proof. unfold bind. now intros ->. Qed.

Lemma load_Some l h c : h !! l = Some c -> load (Some l) h = Done (c, h).
Proof. unfold load. now intros ->. Qed.

Lemma modify_Some l h c upd :
  h !! l = Some c -> modify (Some l) upd h = Done (tt, <[l := upd c]> h).
Proof. unfold modify. now intros ->. Qed.

(** [GetParent] followed by the dereference of its result. *)
Lemma GetParent_load {B} ck (k : Chunk -> Go B) h :
  bind (GetParent ck) (fun p => bind (load p) k) h =
  match parent_of ck h with
  | Some pck => k pck (with_parent ck h)
  | None => Panic
  end.
Proof.
  unfold GetParent, IsGenesis, parent_of, with_parent, bind, alloc, ret.
  destruct (Parent ck) as [p|]; simpl.
  - now destruct (h !! p).
  - now rewrite lookup_insert_eq.
Qed.

Lemma ValidatePoW_run ck pow h :
  ValidatePoW ck pow h =
  match parent_of ck h with
  | Some pck =>
      match pow_check (PoW pck) (Difficulty ck) pow with
      | Some b => Done (b, with_parent ck h)
      | None => Panic
      end
  | None => Panic
  end.
Proof.
  unfold ValidatePoW. rewrite GetParent_load.
  destruct (parent_of ck h) as [pck|]; [|reflexivity].
  unfold pow_check, pow_digest. now destruct (slice_to _ _).
Qed.

Lemma Encode_run ck h :
  Encode ck h =
  match parent_of ck h with
  | Some pck => Done (marshal (Hash pck) ck, with_parent ck h)
  | None => Panic
  end.
Proof.
  unfold Encode, MarshalJSON. unfold bind at 1. rewrite GetParent_load.
  now destruct (parent_of ck h).
Qed.

Lemma set_Hash_set_Hash v w c : set_Hash v (set_Hash w c) = set_Hash v c.
Proof. reflexivity. Qed.

Lemma set_Hash_same c : set_Hash (Hash c) c = c.
Proof. now destruct c. Qed.

(** A chunk other than its own parent sees the same parent while its
    hash is cleared. *)
Lemma parent_of_cleared l c h :
  Parent c <> Some l ->
  parent_of (set_Hash None c) (<[l := set_Hash None c]> h) = parent_of c h.
Proof.
  unfold parent_of. simpl. intros Hne.
  destruct (Parent c) as [p|]; [|reflexivity].
  apply lookup_insert_ne. congruence.
Qed.

Lemma GenerateHash_run l c save h :
  h !! l = Some c ->
  GenerateHash (Some l) save h =
  let c0 := set_Hash None c in
  let h0 := <[l := c0]> h in
  match parent_of c0 h0 with
  | Some pck =>
      let sum := sum256 (slice_contents (marshal (Hash pck) c0)) in
      Done (sum, <[l := set_Hash (if save then Some sum else Hash c) c]> (with_parent c0 h0))
  | None => Panic
  end.
Proof.
  intros Hl. unfold GenerateHash.
  rewrite (bind_Done _ _ _ _ _ (load_Some _ _ _ Hl)).
  rewrite (bind_Done _ _ _ _ _ (modify_Some _ _ _ (set_Hash None) Hl)).
  set (c0 := set_Hash None c). set (h0 := <[l := c0]> h).
  assert (Hl0 : h0 !! l = Some c0) by apply lookup_insert_eq.
  rewrite (bind_Done _ _ _ _ _ (load_Some _ _ _ Hl0)).
  unfold bind at 1. rewrite Encode_run.
  destruct (parent_of c0 h0) as [pck|]; [|reflexivity]. cbv zeta.
  assert (Hl1 : with_parent c0 h0 !! l = Some c0).
  { eapply lookup_weaken; [exact Hl0 | apply with_parent_subseteq]. }
  destruct save.
  - rewrite (bind_Done _ _ _ _ _ (modify_Some _ _ _ _ Hl1)). reflexivity.
  - rewrite (bind_Done _ _ _ _ _ (modify_Some _ _ _ _ Hl1)). reflexivity.
Qed.

End Runs.

(** ** Calls that leave the store as it was *)

Section Frame.

Implicit Types (h : heap) (ck c : Chunk) (l : loc).

Lemma bind_inv {A B} (m : Go A) (k : A -> Go B) h b h' :
  bind m k h = Done (b, h') ->
  exists a h1, m h = Done (a, h1) /\ k a h1 = Done (b, h').
Proof.
  unfold bind. destruct (m h) as [[a h1]| |]; try discriminate. eauto.
Qed.

Lemma preserves_ret {A} (a : A) : preserves_store (ret a : Go A).
Proof. intros h a' h' [= _ ->]. reflexivity. Qed.

Lemma preserves_panic {A} : preserves_store (panic : Go A).
Proof. intros h a h' [=]. Qed.

Lemma preserves_bind {A B} (m : Go A) (k : A -> Go B) :
  preserves_store m -> (forall a, preserves_store (k a)) -> preserves_store (bind m k).
Proof.
  intros Hm Hk h b h' Hrun.
  apply bind_inv in Hrun as (a & h1 & H1 & H2).
  etransitivity; [eapply Hm | eapply Hk]; eassumption.
Qed.

Lemma preserves_if {A} (b : bool) (m1 m2 : Go A) :
  preserves_store m1 -> preserves_store m2 -> preserves_store (if b then m1 else m2).
Proof. now destruct b. Qed.

Lemma preserves_load p : preserves_store (load p : Go Chunk).
Proof.
  intros h a h'. unfold load. destruct p as [l|]; [|discriminate].
  destruct (h !! l); [|discriminate]. intros [= _ ->]. reflexivity.
Qed.

Lemma preserves_alloc c : preserves_store (alloc c : Go loc).
Proof. intros h a h' [= _ <-]. apply alloc_subseteq. Qed.

(** Putting the old value of a chunk back undoes an update of it. *)
Lemma restore_subseteq l c c0 h g :
  h !! l = Some c -> <[l := c0]> h ⊆ g -> h ⊆ <[l := c]> g.
Proof.
  intros Hl Hsub. apply map_subseteq_spec. intros i x Hi.
  destruct (decide (i = l)) as [->|Hne].
  - rewrite lookup_insert_eq. congruence.
  - rewrite lookup_insert_ne by congruence.
    eapply lookup_weaken; [|exact Hsub]. rewrite lookup_insert_ne by congruence. exact Hi.
Qed.

(** [GenerateHash(false)] clears the hash and puts it back. *)
Lemma preserves_GenerateHash_false p : preserves_store (GenerateHash p false).
Proof.
  intros h s h' Hrun. destruct p as [l|]; [|discriminate].
  destruct (h !! l) as [c|] eqn:Hl.
  - rewrite (GenerateHash_run _ _ _ _ Hl) in Hrun. cbv zeta in Hrun.
    destruct (parent_of _ _); [|discriminate].
    injection Hrun as _ <-. rewrite set_Hash_same.
    eapply restore_subseteq; [exact Hl | apply with_parent_subseteq].
  - unfold GenerateHash, bind, load in Hrun. rewrite Hl in Hrun. discriminate.
Qed.

Lemma preserves_GetParent ck : preserves_store (GetParent ck).
Proof.
  unfold GetParent. apply preserves_if.
  - apply preserves_bind; [apply preserves_alloc | intros; apply preserves_ret].
  - apply preserves_ret.
Qed.

Lemma preserves_ValidatePoW ck pow : preserves_store (ValidatePoW ck pow).
Proof.
  unfold ValidatePoW.
  apply preserves_bind; [apply preserves_GetParent | intros p].
  apply preserves_bind; [apply preserves_load | intros pck].
  destruct (slice_to _ _); [apply preserves_ret | apply preserves_panic].
Qed.

Lemma preserves_MarshalJSON ck : preserves_store (MarshalJSON ck).
Proof.
  unfold MarshalJSON.
  apply preserves_bind; [apply preserves_GetParent | intros p].
  apply preserves_bind; [apply preserves_load | intros; apply preserves_ret].
Qed.

Lemma preserves_Encode ck : preserves_store (Encode ck).
Proof.
  unfold Encode.
  apply preserves_bind; [apply preserves_MarshalJSON | intros; apply preserves_ret].
Qed.

Lemma preserves_re c : preserves_store (re c).
Proof.
  unfold re.
  apply preserves_bind; [apply preserves_alloc | intros pc].
  apply preserves_bind; [apply preserves_GenerateHash_false | intros sum].
  apply preserves_bind; [apply preserves_load | intros; apply preserves_ret].
Qed.

Lemma preserves_IsValid ck : preserves_store (IsValid ck).
Proof.
  unfold IsValid.
  apply preserves_bind; [|intros pok; apply preserves_bind; [|intros; apply preserves_ret]].
  - apply preserves_if; [|apply preserves_ret].
    apply preserves_bind; [apply preserves_GetParent | intros pck].
    apply preserves_bind; [apply preserves_load | intros p1].
    apply preserves_bind; [|intros; apply preserves_ret].
    apply preserves_if; [|apply preserves_ret].
    apply preserves_bind; [apply preserves_load | intros p2].
    apply preserves_bind; [apply preserves_ValidatePoW | intros v].
    apply preserves_if; [|apply preserves_ret].
    apply preserves_bind; [apply preserves_load | intros p3; apply preserves_re].
  - apply preserves_bind; [|intros; apply preserves_ret].
    apply preserves_if; [apply preserves_re | apply preserves_ret].
Qed.

End Frame.

(** ** Proof of work: [ValidatePoW] and [Mine] *)

Section ProofOfWork.

Implicit Types (h : heap) (ck c pck : Chunk) (l : loc).

Lemma parent_of_weaken c h h' pck :
  parent_of c h = Some pck -> h ⊆ h' -> parent_of c h' = Some pck.
Proof.
  unfold parent_of. destruct (Parent c) as [p|]; [|auto].
  intros Hp Hsub. eapply lookup_weaken; eassumption.
Qed.

Lemma iter_with_parent_subseteq ck n h : h ⊆ Nat.iter n (with_parent ck) h.
Proof.
  induction n as [|n IH]; simpl; [reflexivity|].
  etransitivity; [exact IH | apply with_parent_subseteq].
Qed.

(** Whether the slice panics depends on the difficulty alone. *)
Lemma pow_check_total ppow dif pow b :
  pow_check ppow dif pow = Some b -> 0 <= dif <= 64.
Proof.
  intros Hc. destruct (Z_lt_dec dif 0) as [Hlo|Hlo].
  - rewrite pow_check_out_of_range in Hc by lia. discriminate.
  - destruct (Z_lt_dec 64 dif) as [Hhi|Hhi]; [|lia].
    rewrite pow_check_out_of_range in Hc by lia. discriminate.
Qed.

Lemma pow_check_defined ppow dif pow :
  0 <= dif <= 64 -> exists b, pow_check ppow dif pow = Some b.
Proof.
  intros Hd. unfold pow_check. pose proof (pow_digest_length ppow pow).
  rewrite slice_to_Some by lia. eauto.
Qed.

Lemma ValidatePoW_Done_inv ck pow h b h' :
  ValidatePoW ck pow h = Done (b, h') ->
  exists pck, parent_of ck h = Some pck /\
              pow_check (PoW pck) (Difficulty ck) pow = Some b /\
              h' = with_parent ck h.
Proof.
  rewrite ValidatePoW_run. destruct (parent_of ck h) as [pck|]; [|discriminate].
  destruct (pow_check _ _ _) as [b'|] eqn:Hc; [|discriminate].
  intros [= -> <-]. eauto.
Qed.

(** A predicate true at [n] has a least non-negative point where it is true. *)
Lemma least_true (f : Z -> bool) n :
  0 <= n -> f n = true ->
  exists n0, 0 <= n0 <= n /\ f n0 = true /\ forall m, 0 <= m < n0 -> f m = false.
Proof.
  intros Hn Hf.
  assert (Hscan : forall k : nat,
             (forall m, 0 <= m < Z.of_nat k -> f m = false) \/
             (exists n0, 0 <= n0 < Z.of_nat k /\ f n0 = true /\
                         forall m, 0 <= m < n0 -> f m = false)).
  { induction k as [|k [Hnone|(n0 & Hr & Ht & Hl)]].
    - left. intros m Hm. lia.
    - destruct (f (Z.of_nat k)) eqn:Hk.
      + right. exists (Z.of_nat k). split; [lia|]. split; [exact Hk | exact Hnone].
      + left. intros m Hm. destruct (Z.eq_dec m (Z.of_nat k)) as [->|]; [exact Hk|].
        apply Hnone. lia.
    - right. exists n0. split; [lia | auto]. }
  destruct (Hscan (S (Z.to_nat n))) as [Hnone|(n0 & Hr & Ht & Hl)].
  - rewrite Hnone in Hf by lia. discriminate.
  - exists n0. split; [lia | auto].
Qed.

(** The loop started at [pow], [k] failing nonces before the first good one. *)
Lemma Mine_loop_finds l ck pck n0 :
  n0 <= int_max ->
  pow_check (PoW pck) (Difficulty ck) n0 = Some true ->
  forall (k : nat) pow fuel h,
    h !! l = Some ck -> parent_of ck h = Some pck ->
    0 <= pow -> pow + Z.of_nat k = n0 ->
    (forall m, pow <= m < n0 -> pow_check (PoW pck) (Difficulty ck) m = Some false) ->
    (k < fuel)%nat ->
    Mine_loop fuel (Some l) pow h = Done (n0, Nat.iter (S k) (with_parent ck) h).
Proof.
  intros Hmax Hgood. induction k as [|k IH]; intros pow fuel h Hl Hp Hpow Hk Hbad Hfuel;
    (destruct fuel as [|fuel]; [lia|]); simpl Mine_loop.
  - rewrite (bind_Done _ _ _ _ _ (load_Some _ _ _ Hl)).
    unfold bind. rewrite ValidatePoW_run, Hp.
    replace pow with n0 by lia. rewrite Hgood. reflexivity.
  - rewrite (bind_Done _ _ _ _ _ (load_Some _ _ _ Hl)).
    unfold bind at 1. rewrite ValidatePoW_run, Hp, Hbad by lia.
    pose proof (with_parent_subseteq ck h) as Hsub.
    rewrite int_add_succ by (unfold int_min, int_max, int_bits in *; simpl in *; lia).
    rewrite (IH (pow + 1) fuel (with_parent ck h)); try lia.
    + rewrite <- !Nat.iter_succ_r. reflexivity.
    + eapply lookup_weaken; eassumption.
    + eapply parent_of_weaken; eassumption.
    + intros m Hm. apply Hbad. lia.
Qed.

(** The loop never ends when no nonce is good. *)
Lemma Mine_loop_never l ck pck :
  (forall m, pow_check (PoW pck) (Difficulty ck) m = Some false) ->
  forall fuel pow h,
    h !! l = Some ck -> parent_of ck h = Some pck ->
    Mine_loop fuel (Some l) pow h = OutOfFuel.
Proof.
  intros Hbad. induction fuel as [|fuel IH]; intros pow h Hl Hp; simpl; [reflexivity|].
  rewrite (bind_Done _ _ _ _ _ (load_Some _ _ _ Hl)).
  unfold bind at 1. rewrite ValidatePoW_run, Hp, Hbad.
  pose proof (with_parent_subseteq ck h) as Hsub.
  apply IH; [eapply lookup_weaken | eapply parent_of_weaken]; eassumption.
Qed.

End ProofOfWork.

Section SampleFacts.

Lemma well_linked_singleton l c : Parent c = None -> well_linked {[ l := c ]}.
Proof.
  intros Hc l' c' p Hl' Hp. apply lookup_singleton_Some in Hl' as [_ <-]. congruence.
Qed.

Lemma well_linked_pair a b :
  Parent a = None -> Parent b = Some 1%positive ->
  well_linked {[ 1%positive := a; 2%positive := b ]}.
Proof.
  intros Ha Hb l c p Hl Hp.
  apply lookup_insert_Some in Hl as [[<- <-]|[Hne Hl]]; [congruence|].
  apply lookup_singleton_Some in Hl as [<- <-].
  assert (p = 1%positive) as -> by congruence.
  split; [discriminate|]. exists a. reflexivity.
Qed.

End SampleFacts.

(** ** The claims on [ValidatePoW], [Mine] and [IsMined] *)

Section MiningClaims.

Implicit Types (h : heap) (ck c pck : Chunk) (l : loc).



(** C3. With a difficulty from 1 to 64, [ValidatePoW] returns, and
    returns true exactly when the hex digest of the decimal nonce of the
    parent (0 for the zero parent of a genesis chunk) followed by the
    decimal candidate nonce starts with as many characters 0 as the
    difficulty; the digest is 64 digits of lowercase hexadecimal. *)
Theorem ValidatePoW_iff_leading_zeros ck n h pck :
  1 <= Difficulty ck <= 64 ->
  parent_of ck h = Some pck ->
  (Parent ck = None -> PoW pck = 0) /\
  String.length (EncodeToString (sum256 (bytes (Itoa (PoW pck) ++ Itoa n)))) = 64%nat /\
  forallb lowercase_hex
    (list_ascii_of_string (EncodeToString (sum256 (bytes (Itoa (PoW pck) ++ Itoa n))))) = true /\
  exists b h',
    ValidatePoW ck n h = Done (b, h') /\
    (b = true <->
     leading_zeros (Z.to_nat (Difficulty ck))
       (EncodeToString (sum256 (bytes (Itoa (PoW pck) ++ Itoa n))))).
Proof.
  intros Hd Hp. split; [|split; [|split]].
  - intros Hgen. unfold parent_of in Hp. rewrite Hgen in Hp. now injection Hp as <-.
  - apply pow_digest_length.
  - apply EncodeToString_lowercase.
  - destruct (pow_check_zeros (PoW pck) (Difficulty ck) n Hd) as (b & Hb & Hiff).
    exists b, (with_parent ck h). rewrite ValidatePoW_run, Hp, Hb. split; [reflexivity|].
    exact Hiff.
Qed.

Lemma ValidatePoW_iff_leading_zeros_witness :
  (Parent Sample.genesis1 = None -> PoW zeroChunk = 0) /\
  String.length (EncodeToString (sum256 (bytes (Itoa (PoW zeroChunk) ++ Itoa 3)))) = 64%nat /\
  forallb lowercase_hex
    (list_ascii_of_string (EncodeToString (sum256 (bytes (Itoa (PoW zeroChunk) ++ Itoa 3))))) = true /\
  exists b h',
    ValidatePoW Sample.genesis1 3 Sample.store1 = Done (b, h') /\
    (b = true <->
     leading_zeros (Z.to_nat (Difficulty Sample.genesis1))
       (EncodeToString (sum256 (bytes (Itoa (PoW zeroChunk) ++ Itoa 3))))).
Proof.
  apply (ValidatePoW_iff_leading_zeros Sample.genesis1 3 Sample.store1 zeroChunk).
  - simpl. lia.
  - reflexivity.
Defined.

End MiningClaims.

Section MiningDefects.

Implicit Types (h : heap) (ck c pck : Chunk) (l : loc).

(** C2. With difficulty 0 the code compares the empty prefix with the
    one character that formatting 0 gives, so [ValidatePoW] returns
    false for every nonce and [Mine] never returns, whatever fuel it is
    given (the claim has it return true and [Mine] return 0). *)
Theorem ValidatePoW_difficulty_zero_false l ck h pck :
  h !! l = Some ck -> Difficulty ck = 0 -> parent_of ck h = Some pck ->
  (forall n, exists h', ValidatePoW ck n h = Done (false, h')) /\
  (forall fuel, Mine fuel (Some l) h = OutOfFuel).
Proof.
  intros Hl Hd Hp. split.
  - intros n. eexists. rewrite ValidatePoW_run, Hp, Hd, pow_check_difficulty_zero.
    reflexivity.
  - intros fuel. unfold Mine, bind.
    rewrite (Mine_loop_never l ck pck); auto.
    intros m. rewrite Hd. apply pow_check_difficulty_zero.
Qed.

Lemma ValidatePoW_difficulty_zero_false_witness :
  (forall n, exists h', ValidatePoW Sample.genesis0 n Sample.store0 = Done (false, h')) /\
  (forall fuel, Mine fuel (Some 1%positive) Sample.store0 = OutOfFuel).
Proof.
  apply (ValidatePoW_difficulty_zero_false 1%positive Sample.genesis0 Sample.store0 zeroChunk);
    reflexivity.
Defined.

(** C4. With a difficulty above 64 the slice of the 64 character digest
    is out of range: [ValidatePoW] panics for every nonce, and so does
    [Mine] in its first iteration (the claim has it return false and
    [Mine] loop forever). *)
Theorem ValidatePoW_difficulty_over_64_panics l ck h :
  h !! l = Some ck -> 64 < Difficulty ck ->
  (forall n, ValidatePoW ck n h = Panic) /\
  (forall fuel, (0 < fuel)%nat -> Mine fuel (Some l) h = Panic).
Proof.
  intros Hl Hd.
  assert (Hpanic : forall n, ValidatePoW ck n h = Panic).
  { intros n. rewrite ValidatePoW_run. destruct (parent_of ck h) as [pck|]; [|reflexivity].
    rewrite pow_check_out_of_range by lia. reflexivity. }
  split; [exact Hpanic|].
  intros [|fuel] Hfuel; [lia|]. unfold Mine. apply bind_Panic. simpl.
  rewrite (bind_Done _ _ _ _ _ (load_Some _ _ _ Hl)).
  apply bind_Panic, Hpanic.
Qed.

Lemma ValidatePoW_difficulty_over_64_panics_witness :
  (forall n, ValidatePoW Sample.genesis65 n Sample.store65 = Panic) /\
  (forall fuel, (0 < fuel)%nat -> Mine fuel (Some 1%positive) Sample.store65 = Panic).
Proof.
  apply (ValidatePoW_difficulty_over_64_panics 1%positive Sample.genesis65 Sample.store65).
  - reflexivity.
  - simpl. lia.
Defined.

(** C9, as the claim has it, fails: the nonce 0 solves [Sample.child0],
    whose stored nonce therefore validates, and the chunk is not
    reported as mined. *)
Lemma IsMined_misses_solution_zero :
  ~ (forall ck h,
       (exists h', ValidatePoW ck (PoW ck) h = Done (true, h')) -> IsMined ck = true).
Proof.
  intros Hclaim.
  assert (Hmined : IsMined Sample.child0 = true).
  { apply (Hclaim Sample.child0 Sample.store29).
    exists Sample.store29. vm_compute. reflexivity. }
  discriminate Hmined.
Qed.

(** C9, amended. [IsMined] tells whether the stored nonce is positive:
    a chunk at the unset value 0 is not mined, also when 0 is a solution,
    and a chunk with a positive nonce is mined. *)
Theorem IsMined_iff_positive ck :
  (IsMined ck = true <-> 0 < PoW ck) /\
  (PoW ck = 0 -> IsMined ck = false).
Proof.
  unfold IsMined. split.
  - apply Z.ltb_lt.
  - intros ->. reflexivity.
Qed.

End MiningDefects.

(** ** Hashing: [GenerateHash] in place and on the copy of [re] *)

Section Hashing.

Implicit Types (h : heap) (ck c pck : Chunk) (l : loc).

(** The copy that [re] works on sees the parent of the chunk copied. *)
Lemma re_run c h pck :
  parent_of c h = Some pck ->
  exists h', re c h = Done (bytes_Equal (Some (content_hash c pck)) (Hash c), h') /\ h ⊆ h'.
Proof.
  intros Hp. unfold re.
  set (f := fresh (dom h)). set (h1 := <[f := c]> h).
  assert (Hf : h !! f = None) by apply fresh_lookup.
  assert (Hsub1 : h ⊆ h1) by apply alloc_subseteq.
  assert (Hl1 : h1 !! f = Some c) by apply lookup_insert_eq.
  assert (Hne : Parent c <> Some f).
  { intros Hpar. unfold parent_of in Hp. rewrite Hpar in Hp. congruence. }
  assert (Halloc : alloc c h = Done (f, h1)) by reflexivity.
  rewrite (bind_Done _ _ _ _ _ Halloc).
  unfold bind at 1. rewrite (GenerateHash_run _ _ _ _ Hl1). cbv zeta.
  rewrite (parent_of_cleared f c h1 Hne), (parent_of_weaken _ _ _ _ Hp Hsub1).
  rewrite set_Hash_same.
  set (h2 := <[f := c]> _).
  assert (Hl2 : h2 !! f = Some c) by apply lookup_insert_eq.
  rewrite (bind_Done _ _ _ _ _ (load_Some _ _ _ Hl2)).
  exists h2. split; [reflexivity|].
  etransitivity; [exact Hsub1|].
  eapply restore_subseteq; [exact Hl1 | apply with_parent_subseteq].
Qed.

(** In place, a chunk other than its own parent gets the same digest. *)
Lemma GenerateHash_false_run l c h pck :
  h !! l = Some c -> Parent c <> Some l -> parent_of c h = Some pck ->
  exists h', GenerateHash (Some l) false h = Done (content_hash c pck, h') /\
             h' !! l = Some c.
Proof.
  intros Hl Hne Hp. rewrite (GenerateHash_run _ _ _ _ Hl). cbv zeta.
  rewrite (parent_of_cleared l c h Hne), Hp, set_Hash_same.
  eexists. split; [reflexivity | apply lookup_insert_eq].
Qed.

(** While the hash of the chunk at [l] is cleared, the parent it sees is
    the one it saw the last time its hash was cleared. *)
Lemma parent_of_cleared_again l c0 x g :
  g !! l = Some c0 ->
  parent_of c0 (<[l := c0]> (<[l := x]> (with_parent c0 g))) = parent_of c0 g.
Proof.
  intros Hl. rewrite insert_insert_eq.
  unfold parent_of, with_parent. destruct (Parent c0) as [p|]; [|reflexivity].
  now rewrite insert_id.
Qed.

Lemma parent_of_cleared_defined l c h :
  h !! l = Some c -> is_Some (parent_of c h) ->
  is_Some (parent_of (set_Hash None c) (<[l := set_Hash None c]> h)).
Proof.
  unfold parent_of. simpl. intros Hl Hp.
  destruct (Parent c) as [p|]; [|exact Hp].
  destruct (decide (p = l)) as [->|Hne].
  - rewrite lookup_insert_eq. eauto.
  - now rewrite lookup_insert_ne by congruence.
Qed.

Lemma regenerated_matches l c h pck :
  h !! l = Some c -> Parent c <> Some l -> parent_of c h = Some pck ->
  (exists sum h1, GenerateHash (Some l) false h = Done (sum, h1) /\
                  bytes_Equal (Some sum) (Hash c) = true) <->
  bytes_Equal (Some (content_hash c pck)) (Hash c) = true.
Proof.
  intros Hl Hne Hp.
  destruct (GenerateHash_false_run l c h pck Hl Hne Hp) as (h' & Hrun & _).
  split.
  - intros (sum & h1 & Hrun' & Heq). rewrite Hrun in Hrun'. now injection Hrun' as <- _.
  - intros Heq. eauto.
Qed.

Lemma stored_nonce_validates c h pck :
  parent_of c h = Some pck ->
  (exists h1, ValidatePoW c (PoW c) h = Done (true, h1)) <->
  pow_check (PoW pck) (Difficulty c) (PoW c) = Some true.
Proof.
  intros Hp. rewrite ValidatePoW_run, Hp. split.
  - intros [h1 Hrun]. destruct (pow_check _ _ _) as [b|]; [|discriminate].
    now injection Hrun as -> _.
  - intros ->. eauto.
Qed.

End Hashing.

(** ** What [IsValid] computes *)

Section Validity.

Implicit Types (h : heap) (ck c pck : Chunk) (l : loc).

Ltac mstep := cbv beta iota delta [bind ret].
Ltac parent_block Hpar Hpk :=
  unfold IsGenesis, GetParent, IsGenesis; rewrite Hpar; cbn [negb]; mstep;
  rewrite (load_Some _ _ _ Hpk); mstep.

(** In a well linked store [IsValid] returns the conjunction of its
    checks, on the parent [pk] (whose own parent is [ppk]) and on the
    chunk; it panics only when the parent's proof of work does. *)
Lemma IsValid_run l ck h :
  well_linked h -> h !! l = Some ck ->
  exists pk, parent_of ck h = Some pk /\
    let self_ok := IsMined ck && bytes_Equal (Some (content_hash ck pk)) (Hash ck) in
    match Parent ck with
    | None => exists h', IsValid ck h = Done (self_ok, h')
    | Some p =>
        exists ppk, parent_of pk h = Some ppk /\
          if int_add (Index pk) 1 =? Index ck then
            match pow_check (PoW ppk) (Difficulty pk) (PoW pk) with
            | Some v =>
                exists h', IsValid ck h =
                  Done (v && bytes_Equal (Some (content_hash pk ppk)) (Hash pk) && self_ok, h')
            | None => IsValid ck h = Panic
            end
          else exists h', IsValid ck h = Done (false, h')
    end.
Proof.
  intros Hwl Hl.
  assert (Hpk : exists pk, parent_of ck h = Some pk).
  { unfold parent_of. destruct (Parent ck) as [p|] eqn:Hpar; [|eauto].
    destruct (Hwl _ _ _ Hl Hpar) as [_ [pk Hpk]]. eauto. }
  destruct Hpk as [pk Hpk]. exists pk. split; [exact Hpk|]. cbv zeta.
  assert (Hself : forall (pok : bool) h1, h ⊆ h1 ->
    exists h',
      (let* bok := (let* ok := (if IsMined ck then re ck else ret false) in
                    ret (if Bool.eqb ok false then false else true)) in
       ret (pok && bok)) h1 =
      Done (pok && (IsMined ck && bytes_Equal (Some (content_hash ck pk)) (Hash ck)), h')).
  { intros pok h1 Hsub. destruct (IsMined ck); mstep.
    - destruct (re_run ck h1 pk (parent_of_weaken _ _ _ _ Hpk Hsub)) as (h' & -> & _).
      exists h'. now destruct (bytes_Equal _ _).
    - eauto. }
  destruct (Parent ck) as [p|] eqn:Hpar.
  - destruct (Hwl _ _ _ Hl Hpar) as [Hne _].
    unfold parent_of in Hpk. rewrite Hpar in Hpk.
    assert (Hppk : exists ppk, parent_of pk h = Some ppk).
    { unfold parent_of. destruct (Parent pk) as [q|] eqn:Hq; [|eauto].
      destruct (Hwl _ _ _ Hpk Hq) as [_ [ppk Hppk]]. eauto. }
    destruct Hppk as [ppk Hppk]. exists ppk. split; [exact Hppk|].
    pose proof (with_parent_subseteq pk h) as Hsub1.
    destruct (int_add (Index pk) 1 =? Index ck) eqn:Hidx;
      [destruct (pow_check _ _ _) as [[|]|] eqn:Hpow|].
    + destruct (re_run pk _ ppk (parent_of_weaken _ _ _ _ Hppk Hsub1)) as (h2 & Hre & Hsub2).
      destruct (Hself (bytes_Equal (Some (content_hash pk ppk)) (Hash pk)) h2) as [h' Hrun].
      { etransitivity; eassumption. }
      exists h'. unfold IsValid. erewrite bind_Done; [exact Hrun|].
      parent_block Hpar Hpk. rewrite Hidx, (load_Some _ _ _ Hpk). mstep.
      unfold IsValidPoW. rewrite ValidatePoW_run, Hppk, Hpow.
      rewrite (load_Some _ _ _ (lookup_weaken _ _ _ _ Hpk Hsub1)), Hre.
      now destruct (bytes_Equal _ (Hash pk)).
    + destruct (Hself false (with_parent pk h) Hsub1) as [h' Hrun].
      exists h'. unfold IsValid. erewrite bind_Done; [exact Hrun|].
      parent_block Hpar Hpk. rewrite Hidx, (load_Some _ _ _ Hpk). mstep.
      unfold IsValidPoW. rewrite ValidatePoW_run, Hppk, Hpow. reflexivity.
    + unfold IsValid. apply bind_Panic.
      parent_block Hpar Hpk. rewrite Hidx, (load_Some _ _ _ Hpk). mstep.
      unfold IsValidPoW. rewrite ValidatePoW_run, Hppk, Hpow. reflexivity.
    + destruct (Hself false h) as [h' Hrun]; [reflexivity|].
      exists h'. unfold IsValid. erewrite bind_Done; [exact Hrun|].
      parent_block Hpar Hpk. rewrite Hidx. reflexivity.
  - destruct (Hself true h) as [h' Hrun]; [reflexivity|].
    exists h'. unfold IsValid. erewrite bind_Done; [exact Hrun|].
    unfold IsGenesis. rewrite Hpar. reflexivity.
Qed.

End Validity.

(** ** The claims on [GenerateHash] *)

Section HashClaims.

Implicit Types (h : heap) (ck c pck : Chunk) (l : loc).

(** C7. For the chunk at [l], whose parent pointer is nil or leads to a
    chunk: [j] being the encoding of the chunk with its hash cleared, in
    the store where it is cleared, [GenerateHash(false)] returns the
    SHA-256 of [j] and leaves the chunk, with its stored hash, and every
    other chunk as they were; [GenerateHash(true)] returns the same
    digest, stores it in the chunk's hash and changes nothing else. *)
Theorem GenerateHash_restores_or_commits l ck h :
  h !! l = Some ck -> is_Some (parent_of ck h) ->
  exists j h0,
    Encode (set_Hash None ck) (<[l := set_Hash None ck]> h) = Done (j, h0) /\
    (exists h', GenerateHash (Some l) false h = Done (sum256 (slice_contents j), h') /\
                h' !! l = Some ck /\ h ⊆ h') /\
    (exists h', GenerateHash (Some l) true h = Done (sum256 (slice_contents j), h') /\
                h' !! l = Some (set_Hash (Some (sum256 (slice_contents j))) ck) /\
                forall l' c', l' <> l -> h !! l' = Some c' -> h' !! l' = Some c').
Proof.
  intros Hl Hp.
  destruct (parent_of_cleared_defined l ck h Hl Hp) as [pck Hp0].
  rewrite Encode_run, Hp0. do 2 eexists. split; [reflexivity|]. split.
  - eexists. split; [|split].
    + rewrite (GenerateHash_run _ _ _ _ Hl). cbv zeta. rewrite Hp0. reflexivity.
    + rewrite set_Hash_same. apply lookup_insert_eq.
    + rewrite set_Hash_same.
      eapply restore_subseteq; [exact Hl | apply with_parent_subseteq].
  - eexists. split; [|split].
    + rewrite (GenerateHash_run _ _ _ _ Hl). cbv zeta. rewrite Hp0. reflexivity.
    + apply lookup_insert_eq.
    + intros l' c' Hne Hl'. rewrite lookup_insert_ne by congruence.
      eapply lookup_weaken; [|apply with_parent_subseteq].
      now rewrite lookup_insert_ne by congruence.
Qed.

Lemma GenerateHash_restores_or_commits_witness :
  exists j h0,
    Encode (set_Hash None Sample.child_done)
           (<[2%positive := set_Hash None Sample.child_done]> Sample.chain) = Done (j, h0) /\
    (exists h', GenerateHash (Some 2%positive) false Sample.chain =
                  Done (sum256 (slice_contents j), h') /\
                h' !! 2%positive = Some Sample.child_done /\ Sample.chain ⊆ h') /\
    (exists h', GenerateHash (Some 2%positive) true Sample.chain =
                  Done (sum256 (slice_contents j), h') /\
                h' !! 2%positive =
                  Some (set_Hash (Some (sum256 (slice_contents j))) Sample.child_done) /\
                forall l' c', l' <> 2%positive ->
                              Sample.chain !! l' = Some c' -> h' !! l' = Some c').
Proof.
  apply (GenerateHash_restores_or_commits 2%positive Sample.child_done Sample.chain).
  - reflexivity.
  - exists Sample.genesis_done. reflexivity.
Defined.

(** C6. After [GenerateHash(true)] on the chunk at [l] returned [sum],
    any number [n] of calls of [GenerateHash(false)] that follow each
    return [sum] again, and [sum] is the chunk's stored hash. *)
Theorem GenerateHash_round_trip l h sum h1 :
  GenerateHash (Some l) true h = Done (sum, h1) ->
  forall n, exists h2 ck,
    regenerate n (Some l) h1 = Done (repeat sum n, h2) /\
    h2 !! l = Some ck /\ Hash ck = Some sum.
Proof.
  intros Hcommit.
  destruct (h !! l) as [c|] eqn:Hl;
    [|unfold GenerateHash, bind, load in Hcommit; rewrite Hl in Hcommit; discriminate].
  rewrite (GenerateHash_run _ _ _ _ Hl) in Hcommit. cbv zeta in Hcommit.
  set (c0 := set_Hash None c) in *. set (h0 := <[l := c0]> h) in *.
  destruct (parent_of c0 h0) as [pck|] eqn:Hp0; [|discriminate].
  injection Hcommit as Hsum Hh1.
  set (c1 := set_Hash (Some sum) c).
  assert (Hinv : h1 !! l = Some c1 /\ parent_of c0 (<[l := c0]> h1) = Some pck).
  { subst h1. rewrite Hsum. split; [apply lookup_insert_eq|].
    rewrite parent_of_cleared_again; [exact Hp0 | apply lookup_insert_eq]. }
  clear Hh1 Hl. intros n. revert h1 Hinv.
  induction n as [|n IH]; intros h1 [Hl1 Hp1].
  - exists h1, c1. split; [reflexivity|]. split; [exact Hl1 | reflexivity].
  - simpl regenerate.
    assert (Hrun : GenerateHash (Some l) false h1 =
                   Done (sum, <[l := c1]> (with_parent c0 (<[l := c0]> h1)))).
    { rewrite (GenerateHash_run _ _ _ _ Hl1). cbv zeta.
      change (set_Hash None c1) with c0. rewrite Hp1, Hsum. reflexivity. }
    rewrite (bind_Done _ _ _ _ _ Hrun).
    destruct (IH (<[l := c1]> (with_parent c0 (<[l := c0]> h1))))
      as (h2 & ck & Hregen & Hl2 & Hh).
    { split; [apply lookup_insert_eq|].
      rewrite parent_of_cleared_again; [exact Hp1 | apply lookup_insert_eq]. }
    exists h2, ck. rewrite (bind_Done _ _ _ _ _ Hregen). auto.
Qed.

Lemma GenerateHash_round_trip_witness :
  GenerateHash (Some 1%positive) true Sample.store_mined =
    Done (Sample.genesis_hash, Sample.store_hashed) /\
  exists h2 ck,
    regenerate 3 (Some 1%positive) Sample.store_hashed =
      Done (repeat Sample.genesis_hash 3, h2) /\
    h2 !! 1%positive = Some ck /\ Hash ck = Some Sample.genesis_hash.
Proof.
  assert (Hcommit : GenerateHash (Some 1%positive) true Sample.store_mined =
                    Done (Sample.genesis_hash, Sample.store_hashed)).
  { vm_compute. reflexivity. }
  split; [exact Hcommit|].
  apply (GenerateHash_round_trip 1%positive Sample.store_mined
           Sample.genesis_hash Sample.store_hashed Hcommit 3%nat).
Defined.

End HashClaims.

(** ** The claims on [IsValid], [GetParent] and the queries *)

Section ValidityClaims.

Implicit Types (h : heap) (ck c pck : Chunk) (l : loc).



(** C8. On a genesis chunk, [n] calls of [GetParent] in a row return [n]
    pointers, none nil, each to a chunk made by the call (its address was
    free before) that is the zero chunk: nonce 0, difficulty 0, index 0,
    nil hash, nil parent. The chunks of the store stay as they were, and
    the final store holds nothing else than them and zero chunks, so no
    chunk got linked to a parent made. *)
Theorem GetParent_genesis_zero_chunk ck h n :
  IsGenesis ck = true ->
  exists ps h',
    parents n ck h = Done (ps, h') /\
    List.length ps = n /\
    (forall p, In p ps ->
       exists l, p = Some l /\ h !! l = None /\ h' !! l = Some zeroChunk) /\
    h ⊆ h' /\
    (forall l c, h' !! l = Some c -> h !! l = Some c \/ c = zeroChunk) /\
    PoW zeroChunk = 0 /\ Difficulty zeroChunk = 0 /\ Index zeroChunk = 0 /\
    Hash zeroChunk = None /\ Parent zeroChunk = None.
Proof.
  intros Hgen. revert h. induction n as [|n IH]; intros h.
  - exists [], h. repeat split; auto. intros p [].
  - set (f := fresh (dom h)). set (h1 := <[f := zeroChunk]> h).
    assert (Hf : h !! f = None) by apply fresh_lookup.
    assert (Hsub1 : h ⊆ h1) by apply alloc_subseteq.
    assert (Hget : GetParent ck h = Done (Some f, h1)).
    { unfold GetParent. rewrite Hgen. reflexivity. }
    destruct (IH h1) as (ps & h' & Hrun & Hlen & Hps & Hsub & Hnew & _).
    exists (Some f :: ps), h'. simpl parents.
    rewrite (bind_Done _ _ _ _ _ Hget), (bind_Done _ _ _ _ _ Hrun).
    split; [reflexivity|]. split; [simpl; now rewrite Hlen|].
    split; [|split; [|split; [|repeat split]]].
    + intros p [<-|Hin].
      * exists f. split; [reflexivity|]. split; [exact Hf|].
        eapply lookup_weaken; [apply lookup_insert_eq | exact Hsub].
      * destruct (Hps p Hin) as (l & -> & Hl1 & Hl').
        exists l. split; [reflexivity|]. split; [|exact Hl'].
        destruct (h !! l) as [x|] eqn:Hl; [|reflexivity].
        rewrite (lookup_weaken _ _ _ _ Hl Hsub1) in Hl1. discriminate.
    + etransitivity; eassumption.
    + intros l c Hl'. destruct (Hnew l c Hl') as [Hl1|Hz]; [|now right].
      unfold h1 in Hl1. apply lookup_insert_Some in Hl1 as [[_ <-]|[_ Hl]]; auto.
Qed.

Lemma GetParent_genesis_zero_chunk_witness :
  exists ps h',
    parents 3 Sample.genesis1 Sample.store1 = Done (ps, h') /\
    List.length ps = 3%nat /\
    (forall p, In p ps ->
       exists l, p = Some l /\ Sample.store1 !! l = None /\ h' !! l = Some zeroChunk) /\
    Sample.store1 ⊆ h' /\
    (forall l c, h' !! l = Some c -> Sample.store1 !! l = Some c \/ c = zeroChunk) /\
    PoW zeroChunk = 0 /\ Difficulty zeroChunk = 0 /\ Index zeroChunk = 0 /\
    Hash zeroChunk = None /\ Parent zeroChunk = None.
Proof.
  apply (GetParent_genesis_zero_chunk Sample.genesis1 Sample.store1 3).
  reflexivity.
Defined.

(** C10. Whenever [ValidatePoW], [IsValidPoW], [IsValid], [Encode],
    [MarshalJSON] or [GetParent] returns, every chunk of the store (the
    receiver's original and its parent among them) is as it was before
    the call: [IsValid] regenerates hashes on copies at new addresses
    only. [IsMined] reads its copy of the chunk and has no access to
    the store. *)
Theorem queries_preserve_store ck pow :
  preserves_store (ValidatePoW ck pow) /\
  preserves_store (IsValidPoW ck) /\
  preserves_store (IsValid ck) /\
  preserves_store (Encode ck) /\
  preserves_store (MarshalJSON ck) /\
  preserves_store (GetParent ck).
Proof.
  repeat split.
  - apply preserves_ValidatePoW.
  - apply preserves_ValidatePoW.
  - apply preserves_IsValid.
  - apply preserves_Encode.
  - apply preserves_MarshalJSON.
  - apply preserves_GetParent.
Qed.

End ValidityClaims.

(** ** The scenario of the specification *)

Section Scenario.

Import Sample.

(** [New] makes the chunks of the samples. *)
Example New_genesis :
  New None 1 "a" t0 ∅ = Done (1%positive, store1) /\
  New None 0 "a" t0 ∅ = Done (1%positive, store0) /\
  New None 65 "a" t0 ∅ = Done (1%positive, store65).
Proof. split; [|split]; vm_compute; reflexivity. Qed.

(** The first nonce of the genesis chunk of difficulty 1 is 3. *)
Example Mine_genesis :
  exists h', Mine 4 (Some 1%positive) store1 = Done (3, h') /\
             h' !! 1%positive = Some genesis_mined.
Proof. eexists. split; [vm_compute; reflexivity|]. vm_compute. reflexivity. Qed.

(** Mined and hashed, the genesis chunk and the chunk on top of it are
    valid; with its data changed the latter is not. *)
Example IsValid_chain :
  (exists h', IsValid genesis_done chain = Done (true, h')) /\
  (exists h', IsValid child_done chain = Done (true, h')) /\
  (exists h', IsValid child_tampered chain_tampered = Done (false, h')).
Proof. split; [|split]; eexists; vm_compute; reflexivity. Qed.

(** The nonce 0 solves [child0]: [Mine] returns it at once, and the
    chunk still is not mined for [IsMined]. *)
Example Mine_child0 :
  Mine 1 (Some 2%positive) store29 = Done (0, store29) /\ IsMined child0 = false.
Proof. split; vm_compute; reflexivity. Qed.

(** Why the store is to be well linked: a chunk that is its own parent
    changes its puzzle when [Mine] stores the nonce found. *)
Example Mine_own_parent :
  exists h', Mine 4 (Some 1%positive) store_loop = Done (3, h') /\
             h' !! 1%positive = Some (set_PoW 3 own_parent) /\
             ValidatePoW (set_PoW 3 own_parent) 3 h' = Done (false, h').
Proof.
  eexists. split; [vm_compute; reflexivity|].
  split; vm_compute; reflexivity.
Qed.

End Scenario.

(** * Further properties *)

(** ** The range of difficulties and the search of [Mine] *)

Section Search.

Implicit Types (h : heap) (ck c pck : Chunk) (l : loc).

(** X1. For a chunk whose parent resolves, [ValidatePoW] returns a boolean
    exactly when the difficulty is from 0 to 64, and panics exactly when
    it is negative or above 64 (the slice of the digest is out of range),
    whatever the nonce. *)
Theorem ValidatePoW_returns_iff_difficulty_in_range ck n h pck :
  parent_of ck h = Some pck ->
  ((exists b h', ValidatePoW ck n h = Done (b, h')) <-> 0 <= Difficulty ck <= 64) /\
  (ValidatePoW ck n h = Panic <-> Difficulty ck < 0 \/ 64 < Difficulty ck) /\
  ValidatePoW ck n h <> OutOfFuel.
Proof.
  intros Hp. rewrite ValidatePoW_run, Hp.
  destruct (pow_check (PoW pck) (Difficulty ck) n) as [b|] eqn:Hc.
  - pose proof (pow_check_total _ _ _ _ Hc) as Hd.
    split; [|split]; [split; eauto | split; [discriminate | lia] | discriminate].
  - assert (Hd : Difficulty ck < 0 \/ 64 < Difficulty ck).
    { destruct (Z_lt_dec (Difficulty ck) 0); [auto|].
      destruct (Z_lt_dec 64 (Difficulty ck)); [auto|].
      destruct (pow_check_defined (PoW pck) (Difficulty ck) n ltac:(lia)) as [b Hb].
      congruence. }
    split; [|split]; [split | split; auto | discriminate].
    + intros (b & h' & Hrun). discriminate.
    + lia.
Qed.

Lemma leading_zeros_le n n' s :
  (n' <= n)%nat -> leading_zeros n s -> leading_zeros n' s.
Proof. intros Hle Hz i Hi. apply Hz. lia. Qed.

(** X2. A nonce that validates for a chunk validates for every chunk with
    the same parent and a lower difficulty, down to 1. *)
Theorem ValidatePoW_difficulty_monotone ck ck' n h :
  Parent ck' = Parent ck -> 1 <= Difficulty ck' <= Difficulty ck ->
  (exists h1, ValidatePoW ck n h = Done (true, h1)) ->
  exists h1, ValidatePoW ck' n h = Done (true, h1).
Proof.
  intros Hpar Hd [h1 Hv].
  apply ValidatePoW_Done_inv in Hv as (pck & Hp & Hc & _).
  pose proof (pow_check_total _ _ _ _ Hc) as Hr.
  assert (Hp' : parent_of ck' h = Some pck).
  { unfold parent_of in *. now rewrite Hpar. }
  destruct (pow_check_zeros (PoW pck) (Difficulty ck) n ltac:(lia)) as (b & Hb & Hiff).
  destruct (pow_check_zeros (PoW pck) (Difficulty ck') n ltac:(lia)) as (b' & Hb' & Hiff').
  assert (b = true) as -> by congruence.
  assert (b' = true) as ->.
  { apply Hiff'. eapply leading_zeros_le; [|now apply Hiff]. lia. }
  eexists. rewrite ValidatePoW_run, Hp', Hb'. reflexivity.
Qed.

(** What a returning loop has done, as long as the nonce cannot wrap. *)
Lemma Mine_loop_Done_inv l ck pck :
  forall fuel pow h n h1,
    h !! l = Some ck -> parent_of ck h = Some pck ->
    0 <= pow -> pow + Z.of_nat fuel <= int_max + 1 ->
    Mine_loop fuel (Some l) pow h = Done (n, h1) ->
    pow <= n < pow + Z.of_nat fuel /\
    pow_check (PoW pck) (Difficulty ck) n = Some true /\
    (forall m, pow <= m < n -> pow_check (PoW pck) (Difficulty ck) m = Some false) /\
    h1 = Nat.iter (S (Z.to_nat (n - pow))) (with_parent ck) h.
Proof.
  induction fuel as [|fuel IH]; intros pow h n h1 Hl Hp Hpow Hmax Hrun; [discriminate|].
  simpl Mine_loop in Hrun.
  rewrite (bind_Done _ _ _ _ _ (load_Some _ _ _ Hl)) in Hrun.
  unfold bind at 1 in Hrun. rewrite ValidatePoW_run, Hp in Hrun.
  destruct (pow_check (PoW pck) (Difficulty ck) pow) as [[|]|] eqn:Hc; [| |discriminate].
  - injection Hrun as <- <-. replace (pow - pow) with 0 by lia.
    split; [lia|]. split; [exact Hc|]. split; [intros m Hm; lia | reflexivity].
  - pose proof (with_parent_subseteq ck h) as Hsub.
    destruct fuel as [|fuel]; [discriminate|].
    assert (Hmin : int_min < 0) by reflexivity.
    rewrite int_add_succ in Hrun by lia.
    apply IH in Hrun as (Hn & Hgood & Hbad & ->); try lia.
    + split; [lia|]. split; [exact Hgood|]. split.
      * intros m Hm. destruct (Z.eq_dec m pow) as [->|]; [exact Hc | apply Hbad; lia].
      * rewrite <- Nat.iter_succ_r. f_equal. lia.
    + eapply lookup_weaken; eassumption.
    + eapply parent_of_weaken; eassumption.
Qed.

(** [Mine] is its loop, then the store of the nonce. *)
Lemma Mine_Done_inv fuel l h n h' :
  Mine fuel (Some l) h = Done (n, h') ->
  exists h1 c1, Mine_loop fuel (Some l) 0 h = Done (n, h1) /\
                h1 !! l = Some c1 /\ h' = <[l := set_PoW n c1]> h1.
Proof.
  unfold Mine. intros Hrun.
  apply bind_inv in Hrun as (pow & h1 & Hloop & Hrun).
  apply bind_inv in Hrun as ([] & h2 & Hmod & Hret).
  injection Hret as -> ->. unfold modify in Hmod.
  destruct (h1 !! l) as [c1|] eqn:Hl1; [|discriminate].
  injection Hmod as <-. eauto.
Qed.

(** The loop keeps the chunks of the store. *)
Lemma Mine_loop_subseteq fuel p : forall pow, preserves_store (Mine_loop fuel p pow).
Proof.
  induction fuel as [|fuel IH]; intros pow; [intros h a h' [=]|].
  simpl. apply preserves_bind; [apply preserves_load | intros c].
  apply preserves_bind; [apply preserves_ValidatePoW | intros ok].
  apply preserves_if; [apply preserves_ret | apply IH].
Qed.

(** X3. Whatever [Mine] returns, within 2^63 iterations, is the least
    validating nonce: [n] is below the fuel, validates, every nonce below
    it fails, the chunk holds it, and no other chunk has changed. *)
Theorem Mine_result_is_least_nonce l ck h fuel n h' :
  h !! l = Some ck -> Z.of_nat fuel <= int_max + 1 ->
  Mine fuel (Some l) h = Done (n, h') ->
  0 <= n < Z.of_nat fuel /\
  (exists h1, ValidatePoW ck n h = Done (true, h1)) /\
  (forall m, 0 <= m < n -> exists h1, ValidatePoW ck m h = Done (false, h1)) /\
  h' !! l = Some (set_PoW n ck) /\
  (forall l' c', l' <> l -> h !! l' = Some c' -> h' !! l' = Some c').
Proof.
  intros Hl Hfuel Hrun.
  apply Mine_Done_inv in Hrun as (h1 & c1 & Hloop & Hl1 & ->).
  pose proof (Mine_loop_subseteq _ _ _ _ _ _ Hloop) as Hsub.
  assert (c1 = ck) as ->.
  { pose proof (lookup_weaken _ _ _ _ Hl Hsub). congruence. }
  assert (Hp : exists pck, parent_of ck h = Some pck).
  { destruct fuel as [|fuel]; [discriminate|]. simpl in Hloop.
    rewrite (bind_Done _ _ _ _ _ (load_Some _ _ _ Hl)) in Hloop.
    apply bind_inv in Hloop as (ok & h2 & Hv & _).
    apply ValidatePoW_Done_inv in Hv as (pck & Hp & _). eauto. }
  destruct Hp as [pck Hp].
  destruct (Mine_loop_Done_inv l ck pck fuel 0 h n h1 Hl Hp ltac:(lia) ltac:(lia) Hloop)
    as (Hn & Hgood & Hbad & _).
  split; [lia|]. split; [|split; [|split]].
  - eexists. rewrite ValidatePoW_run, Hp, Hgood. reflexivity.
  - intros m Hm. eexists. rewrite ValidatePoW_run, Hp, Hbad by lia. reflexivity.
  - apply lookup_insert_eq.
  - intros l' c' Hne Hl'. rewrite lookup_insert_ne by congruence.
    eapply lookup_weaken; eassumption.
Qed.

(** The loop runs out of fuel when the nonces it tries all fail. *)
Lemma Mine_loop_fails l ck pck :
  forall fuel pow h,
    h !! l = Some ck -> parent_of ck h = Some pck ->
    0 <= pow -> pow + Z.of_nat fuel <= int_max + 1 ->
    (forall m, pow <= m < pow + Z.of_nat fuel ->
               pow_check (PoW pck) (Difficulty ck) m = Some false) ->
    Mine_loop fuel (Some l) pow h = OutOfFuel.
Proof.
  induction fuel as [|fuel IH]; intros pow h Hl Hp Hpow Hmax Hbad; [reflexivity|].
  simpl Mine_loop.
  rewrite (bind_Done _ _ _ _ _ (load_Some _ _ _ Hl)).
  unfold bind at 1. rewrite ValidatePoW_run, Hp, Hbad by lia.
  pose proof (with_parent_subseteq ck h) as Hsub.
  destruct fuel as [|fuel]; [reflexivity|].
  assert (Hmin : int_min < 0) by reflexivity.
  rewrite int_add_succ by lia.
  apply IH; try lia.
  - eapply lookup_weaken; eassumption.
  - eapply parent_of_weaken; eassumption.
  - intros m Hm. apply Hbad. lia.
Qed.

(** X4. With a difficulty from 0 to 64, [Mine] is still running after
    [fuel] iterations exactly when the nonces 0, ..., fuel - 1 all fail. *)
Theorem Mine_out_of_fuel_iff l ck h pck fuel :
  h !! l = Some ck -> parent_of ck h = Some pck ->
  0 <= Difficulty ck <= 64 -> Z.of_nat fuel <= int_max + 1 ->
  Mine fuel (Some l) h = OutOfFuel <->
  (forall m, 0 <= m < Z.of_nat fuel -> exists h1, ValidatePoW ck m h = Done (false, h1)).
Proof.
  intros Hl Hp Hd Hfuel. split.
  - intros Hout m Hm.
    destruct (pow_check_defined (PoW pck) (Difficulty ck) m Hd) as [b Hb].
    destruct b.
    + exfalso.
      pose (f := fun k => match pow_check (PoW pck) (Difficulty ck) k with
                          | Some true => true
                          | _ => false
                          end).
      destruct (least_true f m) as (n0 & Hr & Ht & Hleast); [lia | unfold f; now rewrite Hb |].
      assert (Hgood : pow_check (PoW pck) (Difficulty ck) n0 = Some true).
      { unfold f in Ht. now destruct (pow_check _ _ n0) as [[|]|]. }
      assert (Hbad : forall k, 0 <= k < n0 ->
                               pow_check (PoW pck) (Difficulty ck) k = Some false).
      { intros k Hk. specialize (Hleast k Hk). unfold f in Hleast.
        destruct (pow_check_defined (PoW pck) _ k Hd) as [b' Hb'].
        rewrite Hb' in Hleast |- *. now destruct b'. }
      unfold Mine in Hout.
      rewrite (bind_Done _ _ _ _ _
                 (Mine_loop_finds l ck pck n0 ltac:(lia) Hgood (Z.to_nat n0) 0 fuel h
                    Hl Hp ltac:(lia) ltac:(lia) Hbad ltac:(lia))) in Hout.
      pose proof (iter_with_parent_subseteq ck (S (Z.to_nat n0)) h) as Hsub.
      rewrite (bind_Done _ _ _ _ _
                 (modify_Some l _ ck (set_PoW n0) (lookup_weaken _ _ _ _ Hl Hsub))) in Hout.
      discriminate.
    + eexists. rewrite ValidatePoW_run, Hp, Hb. reflexivity.
  - intros Hall. unfold Mine, bind.
    rewrite (Mine_loop_fails l ck pck); auto; [lia|].
    intros m Hm. destruct (Hall m ltac:(lia)) as [h1 Hv].
    apply ValidatePoW_Done_inv in Hv as (pck' & Hp' & Hc & _). congruence.
Qed.

(** X5. Mining a mined chunk again finds the same nonce and leaves the
    chunk as it is. *)
Theorem Mine_again_same_nonce l ck h fuel n h1 :
  well_linked h -> h !! l = Some ck -> Z.of_nat fuel <= int_max + 1 ->
  Mine fuel (Some l) h = Done (n, h1) ->
  exists h2, Mine fuel (Some l) h1 = Done (n, h2) /\ h2 !! l = h1 !! l.
Proof.
  intros Hwl Hl Hfuel Hrun.
  apply Mine_Done_inv in Hrun as (hk & c1 & Hloop & Hlk & ->).
  pose proof (Mine_loop_subseteq _ _ _ _ _ _ Hloop) as Hsub.
  assert (c1 = ck) as ->.
  { pose proof (lookup_weaken _ _ _ _ Hl Hsub). congruence. }
  assert (Hp : exists pck, parent_of ck h = Some pck).
  { destruct fuel as [|fuel']; [discriminate|]. simpl in Hloop.
    rewrite (bind_Done _ _ _ _ _ (load_Some _ _ _ Hl)) in Hloop.
    apply bind_inv in Hloop as (ok & h2 & Hv & _).
    apply ValidatePoW_Done_inv in Hv as (pck & Hp & _). eauto. }
  destruct Hp as [pck Hp].
  destruct (Mine_loop_Done_inv l ck pck fuel 0 h n hk Hl Hp ltac:(lia) ltac:(lia) Hloop)
    as (Hn & Hgood & Hbad & _).
  set (ck1 := set_PoW n ck). set (h1 := <[l := ck1]> hk).
  assert (Hl1 : h1 !! l = Some ck1) by apply lookup_insert_eq.
  assert (Hp1 : parent_of ck1 h1 = Some pck).
  { unfold parent_of in *. simpl. destruct (Parent ck) as [p|] eqn:Hpar; [|exact Hp].
    destruct (Hwl l ck p Hl Hpar) as [Hne _]. unfold h1.
    rewrite lookup_insert_ne by congruence. eapply lookup_weaken; eassumption. }
  set (h2 := Nat.iter (S (Z.to_nat n)) (with_parent ck1) h1).
  pose proof (iter_with_parent_subseteq ck1 (S (Z.to_nat n)) h1) as Hsub2. fold h2 in Hsub2.
  exists (<[l := set_PoW n ck1]> h2). split.
  - unfold Mine.
    rewrite (bind_Done _ _ _ _ _
               (Mine_loop_finds l ck1 pck n ltac:(lia) Hgood (Z.to_nat n) 0 fuel h1
                  Hl1 Hp1 ltac:(lia) ltac:(lia) Hbad ltac:(lia))).
    fold h2.
    rewrite (bind_Done _ _ _ _ _
               (modify_Some l h2 ck1 (set_PoW n) (lookup_weaken _ _ _ _ Hl1 Hsub2))).
    reflexivity.
  - rewrite lookup_insert_eq, Hl1. reflexivity.
Qed.

End Search.

(** ** The links of the chain, an invariant of every call *)

Section Links.

Implicit Types (h : heap) (ck c pck : Chunk) (l : loc).

Lemma int_add_ne z : int_add z 1 <> z.
Proof.
  unfold int_add, int_wrap. intros H.
  change (2 ^ int_bits) with 18446744073709551616 in H.
  change int_min with (-9223372036854775808) in H.
  pose proof (Z.mod_pos_bound (z + 1 - -9223372036854775808) 18446744073709551616
                ltac:(lia)) as Hb.
  destruct (Z.eq_dec (z + 1 - -9223372036854775808) 18446744073709551616) as [He|Hne].
  - rewrite He, Z_mod_same_full in H. lia.
  - rewrite Z.mod_small in H by lia. lia.
Qed.

Lemma chain_linked_well_linked h : chain_linked h -> well_linked h.
Proof.
  intros Hc l c p Hl Hp. destruct (Hc l c p Hl Hp) as (pck & Hpck & Hidx).
  split; [|eauto]. intros ->.
  assert (pck = c) as -> by congruence. symmetry in Hidx. now apply int_add_ne in Hidx.
Qed.


(** An update that keeps the parent and the index of a chunk keeps the links. *)
Lemma chain_linked_update l c c' h :
  chain_linked h -> h !! l = Some c ->
  Parent c' = Parent c -> Index c' = Index c ->
  chain_linked (<[l := c']> h).
Proof.
  intros Hc Hl Hpar Hidx l1 c1 p Hl1 Hp.
  assert (Hold : exists c0, h !! l1 = Some c0 /\ Parent c0 = Some p /\ Index c0 = Index c1).
  { destruct (decide (l1 = l)) as [->|Hne].
    - rewrite lookup_insert_eq in Hl1. injection Hl1 as <-.
      exists c. split; [exact Hl|]. split; congruence.
    - rewrite lookup_insert_ne in Hl1 by congruence. eauto. }
  destruct Hold as (c0 & Hl0 & Hp0 & Hi0).
  destruct (Hc l1 c0 p Hl0 Hp0) as (pck & Hpck & Hi).
  destruct (decide (p = l)) as [->|Hne].
  - exists c'. rewrite lookup_insert_eq. split; [reflexivity|].
    assert (pck = c) as -> by congruence. congruence.
  - exists pck. rewrite lookup_insert_ne by congruence. split; [exact Hpck | congruence].
Qed.

Lemma known_weaken h h' c : known h c -> h ⊆ h' -> known h' c.
Proof.
  intros [Hn|(l0 & c0 & Hl0 & Hc0)] Hsub; [now left|].
  right. exists l0, c0. split; [eapply lookup_weaken; eassumption | exact Hc0].
Qed.

Lemma known_lookup h l c : h !! l = Some c -> known h c.
Proof. intros Hl. right. exists l, c. auto. Qed.

Lemma adds_copies_refl h : adds_copies h h.
Proof. split; [reflexivity|]. intros l c Hl Hn. congruence. Qed.

Lemma adds_copies_trans h1 h2 h3 :
  adds_copies h1 h2 -> adds_copies h2 h3 -> adds_copies h1 h3.
Proof.
  intros [Hs12 Hn12] [Hs23 Hn23]. split; [etransitivity; eassumption|].
  intros l c Hl3 Hl1. destruct (h2 !! l) as [c2|] eqn:Hl2.
  - pose proof (lookup_weaken _ _ _ _ Hl2 Hs23). assert (c2 = c) as -> by congruence.
    now apply Hn12 with l.
  - destruct (Hn23 l c Hl3 Hl2) as [Hnil|(l0 & c0 & Hl0 & Hpar & Hidx)]; [now left|].
    destruct (h1 !! l0) as [c1|] eqn:Hl10.
    + pose proof (lookup_weaken _ _ _ _ Hl10 Hs12). assert (c1 = c0) as -> by congruence.
      right. eauto.
    + destruct (Hn12 l0 c0 Hl0 Hl10) as [Hnil|(l' & c' & Hl' & Hpar' & Hidx')].
      * left. congruence.
      * right. exists l', c'. split; [exact Hl'|]. split; congruence.
Qed.

(** A chunk of a store that grew this way was known before. *)
Lemma adds_copies_known h h' l c : adds_copies h h' -> h' !! l = Some c -> known h c.
Proof.
  intros [Hsub Hnew] Hl'. destruct (h !! l) as [c0|] eqn:Hl.
  - pose proof (lookup_weaken _ _ _ _ Hl Hsub). assert (c0 = c) as -> by congruence.
    now apply known_lookup with l.
  - now apply Hnew with l.
Qed.

Lemma alloc_adds h c : known h c -> adds_copies h (<[fresh (dom h) := c]> h).
Proof.
  intros Hk. split; [apply alloc_subseteq|].
  intros l c' Hl' Hl. apply lookup_insert_Some in Hl' as [[_ <-]|[_ Hl']]; [exact Hk | congruence].
Qed.

Lemma with_parent_adds ck h : adds_copies h (with_parent ck h).
Proof.
  unfold with_parent. destruct (Parent ck); [apply adds_copies_refl|].
  apply alloc_adds. now left.
Qed.

(** The links hold on when such chunks are added. *)
Lemma chain_linked_adds h h' : chain_linked h -> adds_copies h h' -> chain_linked h'.
Proof.
  intros Hc [Hsub Hnew] l c p Hl' Hp.
  assert (Hold : exists l0 c0, h !! l0 = Some c0 /\ Parent c0 = Some p /\ Index c0 = Index c).
  { destruct (h !! l) as [c0|] eqn:Hl.
    - pose proof (lookup_weaken _ _ _ _ Hl Hsub). assert (c0 = c) as -> by congruence. eauto.
    - destruct (Hnew l c Hl' Hl) as [Hnil|(l0 & c0 & Hl0 & Hpar & Hidx)]; [congruence|].
      exists l0, c0. split; [exact Hl0|]. split; congruence. }
  destruct Hold as (l0 & c0 & Hl0 & Hp0 & Hi0).
  destruct (Hc l0 c0 p Hl0 Hp0) as (pck & Hpck & Hi).
  exists pck. split; [eapply lookup_weaken; eassumption | congruence].
Qed.

Lemma copier_ret {A} (a : A) : copier (ret a : Go A).
Proof. intros h a' h' [= _ ->]. apply adds_copies_refl. Qed.

Lemma copier_panic {A} : copier (panic : Go A).
Proof. intros h a h' [=]. Qed.

Lemma copier_bind {A B} (m : Go A) (k : A -> Go B) :
  copier m -> (forall a, copier (k a)) -> copier (bind m k).
Proof.
  intros Hm Hk h b h' Hrun.
  apply bind_inv in Hrun as (a & h1 & H1 & H2).
  eapply adds_copies_trans; [eapply Hm | eapply Hk]; eassumption.
Qed.

Lemma copier_if {A} (b : bool) (m1 m2 : Go A) :
  copier m1 -> copier m2 -> copier (if b then m1 else m2).
Proof. now destruct b. Qed.

Lemma copier_load p : copier (load p : Go Chunk).
Proof.
  intros h a h'. unfold load. destruct p as [l|]; [|discriminate].
  destruct (h !! l); [|discriminate]. intros [= _ ->]. apply adds_copies_refl.
Qed.

Lemma copier_GetParent ck : copier (GetParent ck).
Proof.
  unfold GetParent. apply copier_if; [|apply copier_ret].
  apply copier_bind; [|intros; apply copier_ret].
  intros h l h' [= _ <-]. apply alloc_adds. now left.
Qed.

Lemma copier_ValidatePoW ck pow : copier (ValidatePoW ck pow).
Proof.
  unfold ValidatePoW.
  apply copier_bind; [apply copier_GetParent | intros p].
  apply copier_bind; [apply copier_load | intros pck].
  destruct (slice_to _ _); [apply copier_ret | apply copier_panic].
Qed.



(** What [GenerateHash] leaves: the chunk with the hash it decided on, in
    the store grown by the encoding. *)
Lemma GenerateHash_Done_inv p save h sum h' :
  GenerateHash p save h = Done (sum, h') ->
  exists l c h1,
    p = Some l /\ h !! l = Some c /\
    adds_copies (<[l := set_Hash None c]> h) h1 /\
    h' = <[l := set_Hash (if save then Some sum else Hash c) c]> h1.
Proof.
  intros Hrun. destruct p as [l|]; [|discriminate].
  destruct (h !! l) as [c|] eqn:Hl;
    [|unfold GenerateHash, bind, load in Hrun; rewrite Hl in Hrun; discriminate].
  rewrite (GenerateHash_run _ _ _ _ Hl) in Hrun. cbv zeta in Hrun.
  destruct (parent_of _ _) as [pck|]; [|discriminate].
  injection Hrun as <- <-.
  exists l, c, (with_parent (set_Hash None c) (<[l := set_Hash None c]> h)).
  split; [reflexivity|]. split; [exact Hl|]. split; [apply with_parent_adds | reflexivity].
Qed.

Lemma copier_GenerateHash_false p : copier (GenerateHash p false).
Proof.
  intros h sum h' Hrun.
  apply GenerateHash_Done_inv in Hrun as (l & c & h1 & -> & Hl & [Hsub Hnew] & ->).
  rewrite set_Hash_same. split.
  - eapply restore_subseteq; eassumption.
  - intros l1 c1 Hl1 Hn.
    assert (Hne : l1 <> l) by congruence.
    rewrite lookup_insert_ne in Hl1 by congruence.
    destruct (Hnew l1 c1 Hl1) as [Hnil|(l0 & c0 & Hl0 & Hpar & Hidx)].
    + rewrite lookup_insert_ne by congruence. exact Hn.
    + now left.
    + destruct (decide (l0 = l)) as [->|Hne0].
      * rewrite lookup_insert_eq in Hl0. injection Hl0 as <-. right. exists l, c. auto.
      * rewrite lookup_insert_ne in Hl0 by congruence. right. eauto.
Qed.

Lemma re_adds c h b h' : known h c -> re c h = Done (b, h') -> adds_copies h h'.
Proof.
  intros Hk Hrun. unfold re in Hrun.
  apply bind_inv in Hrun as (f & h1 & Halloc & Hrun). injection Halloc as <- <-.
  apply bind_inv in Hrun as (sum & h2 & Hgen & Hrun).
  apply bind_inv in Hrun as (c' & h3 & Hload & Hret).
  apply copier_load in Hload. injection Hret as _ <-.
  eapply adds_copies_trans; [apply alloc_adds, Hk|].
  eapply adds_copies_trans; [eapply copier_GenerateHash_false; eassumption | exact Hload].
Qed.

(** [re] on a chunk just read from the store. *)
Lemma copier_load_re p : copier (bind (load p) re).
Proof.
  intros h b h' Hrun. apply bind_inv in Hrun as (c & h1 & Hload & Hre).
  unfold load in Hload. destruct p as [l|]; [|discriminate].
  destruct (h !! l) as [c0|] eqn:Hl; [|discriminate]. injection Hload as <- <-.
  eapply re_adds; [eapply known_lookup|]; eassumption.
Qed.

Lemma IsValid_adds ck h b h' :
  known h ck -> IsValid ck h = Done (b, h') -> adds_copies h h'.
Proof.
  intros Hk Hrun. unfold IsValid in Hrun.
  apply bind_inv in Hrun as (pok & h1 & Hparent & Hrun).
  assert (H1 : adds_copies h h1).
  { revert Hparent. apply copier_if; [|apply copier_ret].
    apply copier_bind; [apply copier_GetParent | intros pck].
    apply copier_bind; [apply copier_load | intros p1].
    apply copier_bind; [|intros; apply copier_ret].
    apply copier_if; [|apply copier_ret].
    apply copier_bind; [apply copier_load | intros p2].
    apply copier_bind; [apply copier_ValidatePoW | intros v].
    apply copier_if; [apply copier_load_re | apply copier_ret]. }
  apply bind_inv in Hrun as (bok & h2 & Hself & Hret). injection Hret as _ <-.
  apply bind_inv in Hself as (ok & h3 & Hself & Hret). injection Hret as _ <-.
  eapply adds_copies_trans; [exact H1|].
  destruct (IsMined ck).
  - eapply re_adds; [|exact Hself]. destruct H1 as [Hsub _]. eapply known_weaken; eassumption.
  - injection Hself as _ <-. apply adds_copies_refl.
Qed.

Lemma copier_Mine_loop fuel p : forall pow, copier (Mine_loop fuel p pow).
Proof.
  induction fuel as [|fuel IH]; intros pow; [intros h a h' [=]|].
  simpl. apply copier_bind; [apply copier_load | intros c].
  apply copier_bind; [apply copier_ValidatePoW | intros ok].
  apply copier_if; [apply copier_ret | apply IH].
Qed.

Lemma GenerateHash_chain_linked p save h sum h' :
  chain_linked h -> GenerateHash p save h = Done (sum, h') -> chain_linked h'.
Proof.
  intros Hc Hrun.
  apply GenerateHash_Done_inv in Hrun as (l & c & h1 & -> & Hl & Hadds & ->).
  assert (Hc0 : chain_linked (<[l := set_Hash None c]> h)).
  { eapply chain_linked_update; [exact Hc | exact Hl | reflexivity | reflexivity]. }
  pose proof (chain_linked_adds _ _ Hc0 Hadds) as Hc1.
  apply (chain_linked_update l (set_Hash None c) _ h1 Hc1); [|reflexivity|reflexivity].
  destruct Hadds as [Hsub _]. eapply lookup_weaken; [apply lookup_insert_eq | exact Hsub].
Qed.

Lemma Mine_chain_linked fuel p h n h' :
  chain_linked h -> Mine fuel p h = Done (n, h') -> chain_linked h'.
Proof.
  intros Hc Hrun. unfold Mine in Hrun.
  apply bind_inv in Hrun as (pow & h1 & Hloop & Hrun).
  apply bind_inv in Hrun as ([] & h2 & Hmod & Hret). injection Hret as _ <-.
  apply copier_Mine_loop in Hloop.
  pose proof (chain_linked_adds _ _ Hc Hloop) as Hc1.
  unfold modify in Hmod. destruct p as [l|]; [|discriminate].
  destruct (h1 !! l) as [c1|] eqn:Hl1; [|discriminate]. injection Hmod as <-.
  eapply chain_linked_update; [exact Hc1 | exact Hl1 | reflexivity | reflexivity].
Qed.

Lemma New_Done_inv blk dif data now h l h' :
  New blk dif data now h = Done (l, h') ->
  exists c, l = fresh (dom h) /\ h' = <[l := c]> h /\
            Parent c = blk /\ Hash c = None /\ PoW c = 0 /\ Difficulty c = dif /\
            Data c = data /\ Timestamp c = now /\
            match blk with
            | None => Index c = 0
            | Some l0 => exists pck, h !! l0 = Some pck /\ Index c = int_add (Index pck) 1
            end.
Proof.
  unfold New. destruct blk as [l0|].
  - intros Hrun. apply bind_inv in Hrun as (pck & h1 & Hload & Halloc).
    unfold load in Hload. destruct (h !! l0) as [c0|] eqn:Hl0; [|discriminate].
    injection Hload as <- <-. injection Halloc as <- <-.
    eexists. repeat (split; [reflexivity|]). simpl. eauto.
  - intros [= <- <-]. eexists. repeat (split; [reflexivity|]). reflexivity.
Qed.

Lemma New_chain_linked blk dif data now h l h' :
  chain_linked h -> New blk dif data now h = Done (l, h') -> chain_linked h'.
Proof.
  intros Hc Hrun.
  apply New_Done_inv in Hrun as (c & -> & -> & Hpar & _ & _ & _ & _ & _ & Hidx).
  pose proof (fresh_lookup h) as Hf.
  intros l1 c1 p Hl1 Hp.
  apply lookup_insert_Some in Hl1 as [[<- <-]|[Hne Hl1]].
  - assert (blk = Some p) as -> by congruence. destruct Hidx as (pck & Hpck & Hi).
    exists pck. split; [|exact Hi].
    rewrite lookup_insert_ne; [exact Hpck | congruence].
  - destruct (Hc l1 c1 p Hl1 Hp) as (pck & Hpck & Hi).
    exists pck. split; [|exact Hi].
    rewrite lookup_insert_ne; [exact Hpck | congruence].
Qed.



End Links.

(** ** What a valid chunk is, and when a chunk becomes one *)

Section Valid.

Implicit Types (h : heap) (ck c pck : Chunk) (l : loc).

Lemma bytes_Equal_Some_inv sum v :
  List.length sum = 32%nat -> bytes_Equal (Some sum) v = true -> v = Some sum.
Proof.
  unfold bytes_Equal. intros Hlen Heq. apply eq_bytes_eq in Heq. simpl in Heq.
  destruct v as [bs|]; simpl in Heq; [congruence|].
  subst sum. discriminate.
Qed.

(** A copy passes [re] only with a 32 byte hash stored. *)
Lemma re_true_inv c h h' :
  re c h = Done (true, h') ->
  exists bs, Hash c = Some bs /\ List.length bs = 32%nat.
Proof.
  unfold re. intros Hrun.
  apply bind_inv in Hrun as (f & h1 & Halloc & Hrun). injection Halloc as <- <-.
  apply bind_inv in Hrun as (sum & h2 & Hgen & Hrun).
  assert (Hl1 : <[fresh (dom h) := c]> h !! fresh (dom h) = Some c) by apply lookup_insert_eq.
  rewrite (GenerateHash_run _ _ _ _ Hl1) in Hgen. cbv zeta in Hgen.
  destruct (parent_of _ _) as [pck|]; [|discriminate].
  injection Hgen as <- <-. rewrite set_Hash_same in Hrun.
  rewrite (bind_Done _ _ _ _ _ (load_Some _ _ _ (lookup_insert_eq _ _ _))) in Hrun.
  injection Hrun as Heq _.
  apply bytes_Equal_Some_inv in Heq; [|apply sum256_length].
  eexists. split; [exact Heq | apply sum256_length].
Qed.

Lemma IsValid_true_inv ck h h' :
  IsValid ck h = Done (true, h') ->
  IsMined ck = true /\ exists bs, Hash ck = Some bs /\ List.length bs = 32%nat.
Proof.
  unfold IsValid. intros Hrun.
  apply bind_inv in Hrun as (pok & h1 & _ & Hrun).
  apply bind_inv in Hrun as (bok & h2 & Hself & Hret).
  injection Hret as Hb _. apply andb_true_iff in Hb as [_ ->].
  apply bind_inv in Hself as (ok & h3 & Hself & Hret).
  injection Hret as Hok _. destruct ok; [|discriminate].
  destruct (IsMined ck); [|discriminate].
  split; [reflexivity|]. eapply re_true_inv. exact Hself.
Qed.

(** X6. [IsValid] returns true only for a chunk with a positive nonce and
    a stored hash of 32 bytes, in any store. *)
Theorem IsValid_true_only_if_mined_and_hashed ck h h' :
  IsValid ck h = Done (true, h') ->
  0 < PoW ck /\ exists bs, Hash ck = Some bs /\ List.length bs = 32%nat.
Proof.
  intros Hrun. apply IsValid_true_inv in Hrun as [Hm Hh].
  split; [now apply Z.ltb_lt | exact Hh].
Qed.

(** X7. On a linked store, [New] with no previous chunk or one of the
    store returns a new address holding a chunk with the given parent,
    difficulty, data and time, nil hash, nonce 0, and index 0 or the
    parent's plus one; the other chunks are as before, the store stays
    linked, and the chunk is not valid yet. *)
Theorem New_links_unmined_chunk blk dif data now h :
  chain_linked h ->
  (forall l0, blk = Some l0 -> is_Some (h !! l0)) ->
  exists l c,
    New blk dif data now h = Done (l, <[l := c]> h) /\
    h !! l = None /\
    Parent c = blk /\ Hash c = None /\ PoW c = 0 /\ Difficulty c = dif /\
    Data c = data /\ Timestamp c = now /\
    (blk = None -> Index c = 0) /\
    (forall l0 pck, blk = Some l0 -> h !! l0 = Some pck -> Index c = int_add (Index pck) 1) /\
    chain_linked (<[l := c]> h) /\
    (forall h', IsValid c (<[l := c]> h) <> Done (true, h')).
Proof.
  intros Hc Hblk.
  assert (Hrun : exists l h', New blk dif data now h = Done (l, h')).
  { unfold New. destruct blk as [l0|]; [|unfold alloc; eauto].
    destruct (Hblk l0 eq_refl) as [pck Hpck].
    rewrite (bind_Done _ _ _ _ _ (load_Some _ _ _ Hpck)). unfold alloc. eauto. }
  destruct Hrun as (l & h' & Hrun).
  pose proof (New_chain_linked _ _ _ _ _ _ _ Hc Hrun) as Hc'.
  destruct (New_Done_inv _ _ _ _ _ _ _ Hrun)
    as (c & -> & -> & Hpar & Hh & Hpow & Hd & Hdata & Ht & Hidx).
  exists (fresh (dom h)), c. split; [exact Hrun|]. split; [apply fresh_lookup|].
  repeat (split; [assumption|]).
  split; [|split; [|split]].
  - intros ->. exact Hidx.
  - intros l0 pck -> Hpck. destruct Hidx as (pck' & Hpck' & Hi). congruence.
  - exact Hc'.
  - intros h' Hvalid. apply IsValid_true_inv in Hvalid as [Hm _].
    unfold IsMined in Hm. rewrite Hpow in Hm. discriminate.
Qed.

(** X9. When [Mine] returns the nonce 0, the chunk is not valid, with or
    without its hash committed afterwards. *)
Theorem Mine_zero_leaves_chunk_invalid fuel l h h1 save sum h2 ck2 h3 :
  Mine fuel (Some l) h = Done (0, h1) ->
  GenerateHash (Some l) save h1 = Done (sum, h2) ->
  h2 !! l = Some ck2 ->
  IsValid ck2 h2 <> Done (true, h3).
Proof.
  intros Hmine Hgen Hl2 Hvalid.
  apply Mine_Done_inv in Hmine as (hk & c1 & _ & _ & ->).
  apply GenerateHash_Done_inv in Hgen as (l' & c & hx & [= <-] & Hl1 & _ & ->).
  rewrite lookup_insert_eq in Hl1. injection Hl1 as <-.
  rewrite lookup_insert_eq in Hl2. injection Hl2 as <-.
  apply IsValid_true_inv in Hvalid as [Hm _]. discriminate.
Qed.

(** The links are kept by a committed hash. *)
Lemma GenerateHash_well_linked l c save h sum h' :
  well_linked h -> h !! l = Some c ->
  GenerateHash (Some l) save h = Done (sum, h') ->
  well_linked h' /\
  h' !! l = Some (set_Hash (if save then Some sum else Hash c) c) /\
  parent_of c h' = parent_of c h /\
  sum = content_hash c (default zeroChunk (parent_of c h)).
Proof.
  intros Hwl Hl Hrun.
  assert (Hne : Parent c <> Some l).
  { intros Hpar. now destruct (Hwl _ _ _ Hl Hpar). }
  rewrite (GenerateHash_run _ _ _ _ Hl) in Hrun. cbv zeta in Hrun.
  rewrite (parent_of_cleared l c h Hne) in Hrun.
  destruct (parent_of c h) as [pck|] eqn:Hp; [|discriminate].
  injection Hrun as <- <-.
  set (c0 := set_Hash None c). set (h0 := <[l := c0]> h).
  set (c1 := set_Hash _ c).
  pose proof (with_parent_subseteq c0 h0) as Hsub.
  assert (Hl0 : h0 !! l = Some c0) by apply lookup_insert_eq.
  split; [|split; [|split]].
  - intros l1 x p Hl1 Hpx.
    assert (Hold : x = zeroChunk \/ exists x0, h !! l1 = Some x0 /\ Parent x0 = Parent x).
    { destruct (decide (l1 = l)) as [->|Hne1].
      - rewrite lookup_insert_eq in Hl1. injection Hl1 as <-. right. eauto.
      - rewrite lookup_insert_ne in Hl1 by congruence.
        unfold with_parent in Hl1. simpl in Hl1. destruct (Parent c) as [q|].
        + unfold h0 in Hl1. rewrite lookup_insert_ne in Hl1 by congruence. right. eauto.
        + apply lookup_insert_Some in Hl1 as [[_ <-]|[_ Hl1]]; [now left|].
          unfold h0 in Hl1. rewrite lookup_insert_ne in Hl1 by congruence. right. eauto. }
    destruct Hold as [->|(x0 & Hx0 & Hpar0)]; [discriminate|].
    rewrite <- Hpar0 in Hpx. destruct (Hwl l1 x0 p Hx0 Hpx) as [Hnp [y Hy]].
    split; [exact Hnp|].
    destruct (decide (p = l)) as [->|Hnl].
    + rewrite lookup_insert_eq. eauto.
    + rewrite lookup_insert_ne by congruence. exists y.
      eapply lookup_weaken; [|exact Hsub]. unfold h0. now rewrite lookup_insert_ne by congruence.
  - apply lookup_insert_eq.
  - unfold parent_of in *. destruct (Parent c) as [p|]; [|exact Hp].
    rewrite lookup_insert_ne by congruence.
    eapply lookup_weaken; [|exact Hsub].
    unfold h0. now rewrite lookup_insert_ne by congruence.
  - reflexivity.
Qed.

End Valid.

Section ValidAfterCommit.

Implicit Types (h : heap) (ck c pck : Chunk) (l : loc).

(** [IsValid] in terms of the digest of the chunk's encoding. *)
Lemma IsValid_true_iff l ck h pk :
  well_linked h -> h !! l = Some ck -> parent_of ck h = Some pk ->
  (exists h', IsValid ck h = Done (true, h')) <->
  ((forall p, Parent ck = Some p ->
      exists pck, h !! p = Some pck /\
        int_add (Index pck) 1 = Index ck /\
        (exists h1, ValidatePoW pck (PoW pck) h = Done (true, h1)) /\
        (exists sum h1, GenerateHash (Some p) false h = Done (sum, h1) /\
                        bytes_Equal (Some sum) (Hash pck) = true)) /\
   IsMined ck = true /\
   bytes_Equal (Some (content_hash ck pk)) (Hash ck) = true).
Proof.
  intros Hwl Hl Hpk0.
  destruct (IsValid_run l ck h Hwl Hl) as (pk' & Hpk & Hrun). cbv zeta in Hrun.
  assert (pk' = pk) as -> by congruence.
  destruct (Parent ck) as [p|] eqn:Hpar.
  - destruct Hrun as (ppk & Hppk & Hrun).
    unfold parent_of in Hpk. rewrite Hpar in Hpk.
    assert (Hpself : Parent pk <> Some p).
    { intros Hq. now destruct (Hwl _ _ _ Hpk Hq). }
    pose proof (regenerated_matches p pk h ppk Hpk Hpself Hppk) as Hregen.
    pose proof (stored_nonce_validates pk h ppk Hppk) as Hnonce.
    split.
    + intros [h0 Hvalid].
      destruct (int_add (Index pk) 1 =? Index ck) eqn:Hidx.
      * destruct (pow_check _ _ _) as [v|]; [|congruence].
        destruct Hrun as [h' Hrun]. rewrite Hrun in Hvalid. injection Hvalid as Hb _.
        apply andb_true_iff in Hb as [Hb Hs]. apply andb_true_iff in Hb as [-> Hh].
        apply andb_true_iff in Hs as [Hm Hs].
        split; [|split; assumption].
        intros p' [= <-]. exists pk. split; [exact Hpk|]. split; [now apply Z.eqb_eq|].
        split; [now apply Hnonce | now apply Hregen].
      * destruct Hrun as [h' Hrun]. rewrite Hrun in Hvalid. discriminate.
    + intros (Hparent & Hm & Hs).
      destruct (Hparent p eq_refl) as (pck & Hp' & Hidx & Hv & Hh).
      assert (pck = pk) as -> by congruence.
      apply Z.eqb_eq in Hidx. rewrite Hidx in Hrun.
      apply Hnonce in Hv. rewrite Hv in Hrun. apply Hregen in Hh.
      destruct Hrun as [h' Hrun]. exists h'. rewrite Hrun, Hh, Hm, Hs. reflexivity.
  - destruct Hrun as [h' Hrun]. split.
    + intros [h0 Hvalid]. rewrite Hrun in Hvalid. injection Hvalid as Hb _.
      apply andb_true_iff in Hb as [Hm Hs]. split; [discriminate | split; assumption].
    + intros (_ & Hm & Hs). exists h'. rewrite Hrun, Hm, Hs. reflexivity.
Qed.

(** Once the hash is committed, the check of the chunk itself is whether
    it is mined. *)
Lemma IsValid_after_commit l ck h sum h1 :
  well_linked h -> h !! l = Some ck ->
  GenerateHash (Some l) true h = Done (sum, h1) ->
  h1 !! l = Some (set_Hash (Some sum) ck) /\
  ((exists h2, IsValid (set_Hash (Some sum) ck) h1 = Done (true, h2)) <->
   (IsMined ck = true /\
    forall p, Parent ck = Some p ->
      exists pck, h1 !! p = Some pck /\
        int_add (Index pck) 1 = Index ck /\
        (exists hx, ValidatePoW pck (PoW pck) h1 = Done (true, hx)) /\
        (exists s hx, GenerateHash (Some p) false h1 = Done (s, hx) /\
                      bytes_Equal (Some s) (Hash pck) = true))).
Proof.
  intros Hwl Hl Hrun.
  destruct (GenerateHash_well_linked l ck true h sum h1 Hwl Hl Hrun)
    as (Hwl1 & Hl1 & Hp1 & Hsum).
  split; [exact Hl1|].
  destruct (parent_of ck h) as [pk|] eqn:Hp.
  2:{ rewrite (GenerateHash_run _ _ _ _ Hl) in Hrun. cbv zeta in Hrun.
      assert (Hne : Parent ck <> Some l).
      { intros Hpar. now destruct (Hwl _ _ _ Hl Hpar). }
      rewrite (parent_of_cleared l ck h Hne), Hp in Hrun. discriminate. }
  simpl in Hsum.
  rewrite (IsValid_true_iff l (set_Hash (Some sum) ck) h1 pk Hwl1 Hl1 Hp1).
  assert (Hself : bytes_Equal (Some (content_hash (set_Hash (Some sum) ck) pk))
                              (Hash (set_Hash (Some sum) ck)) = true).
  { simpl. rewrite Hsum. unfold bytes_Equal. apply eq_bytes_eq. reflexivity. }
  simpl Parent. simpl Index. unfold IsMined at 1. simpl PoW. fold (IsMined ck).
  split.
  - intros (Hparent & Hm & _). auto.
  - intros (Hm & Hparent). auto.
Qed.

(** X10. After [GenerateHash(true)] on a chunk of a well linked store,
    [IsValid] returns true for it exactly when it is mined and, if it has
    a parent, the parent's index plus one is its index, the parent's
    stored nonce validates and the parent's hash regenerates; the chunk's
    own nonce is not validated. *)
Theorem committed_chunk_valid_iff l ck h sum h1 :
  well_linked h -> h !! l = Some ck ->
  GenerateHash (Some l) true h = Done (sum, h1) ->
  h1 !! l = Some (set_Hash (Some sum) ck) /\
  ((exists h2, IsValid (set_Hash (Some sum) ck) h1 = Done (true, h2)) <->
   (IsMined ck = true /\
    forall p, Parent ck = Some p ->
      exists pck, h1 !! p = Some pck /\
        int_add (Index pck) 1 = Index ck /\
        (exists hx, ValidatePoW pck (PoW pck) h1 = Done (true, hx)) /\
        (exists s hx, GenerateHash (Some p) false h1 = Done (s, hx) /\
                      bytes_Equal (Some s) (Hash pck) = true))).
Proof. exact (IsValid_after_commit l ck h sum h1). Qed.

(** X14. A chunk made by [New] on a linked store, then mined, then hashed
    with [GenerateHash(true)], holds the nonce and the digest, and
    [IsValid] returns true for it exactly when the nonce is positive and,
    if it has a parent, the parent's stored nonce validates and the
    parent's hash regenerates. *)
Theorem new_mined_hashed_chunk_valid_iff blk dif data now fuel h l h0 n h1 sum h2 :
  chain_linked h ->
  New blk dif data now h = Done (l, h0) ->
  Mine fuel (Some l) h0 = Done (n, h1) ->
  GenerateHash (Some l) true h1 = Done (sum, h2) ->
  exists ck,
    h2 !! l = Some ck /\ Parent ck = blk /\ PoW ck = n /\ Hash ck = Some sum /\
    Difficulty ck = dif /\ Data ck = data /\
    ((exists h3, IsValid ck h2 = Done (true, h3)) <->
     (0 < n /\
      forall p, blk = Some p ->
        exists pck, h2 !! p = Some pck /\
          (exists hx, ValidatePoW pck (PoW pck) h2 = Done (true, hx)) /\
          (exists s hx, GenerateHash (Some p) false h2 = Done (s, hx) /\
                        bytes_Equal (Some s) (Hash pck) = true))).
Proof.
  intros Hc Hnew Hmine Hgen.
  pose proof (New_chain_linked _ _ _ _ _ _ _ Hc Hnew) as Hc0.
  pose proof (Mine_chain_linked _ _ _ _ _ Hc0 Hmine) as Hc1.
  pose proof (GenerateHash_chain_linked _ _ _ _ _ Hc1 Hgen) as Hc2.
  destruct (New_Done_inv _ _ _ _ _ _ _ Hnew)
    as (c & -> & -> & Hpar & _ & _ & Hd & Hdata & _ & _).
  set (l := fresh (dom h)) in *.
  apply Mine_Done_inv in Hmine as (hk & c1 & Hloop & Hlk & ->).
  pose proof (Mine_loop_subseteq _ _ _ _ _ _ Hloop) as Hsub.
  assert (c1 = c) as ->.
  { pose proof (lookup_weaken _ _ _ _ (lookup_insert_eq h l c) Hsub). congruence. }
  set (cm := set_PoW n c) in *.
  assert (Hlm : <[l := cm]> hk !! l = Some cm) by apply lookup_insert_eq.
  destruct (IsValid_after_commit l cm _ sum h2 (chain_linked_well_linked _ Hc1) Hlm Hgen)
    as (Hl2 & Hiff).
  exists (set_Hash (Some sum) cm). split; [exact Hl2|].
  repeat (split; [assumption || reflexivity|]).
  rewrite Hiff. unfold IsMined. simpl PoW. rewrite Z.ltb_lt. simpl Parent. simpl Index.
  rewrite Hpar. split.
  - intros (Hn & Hparent). split; [exact Hn|]. intros p Hp.
    destruct (Hparent p Hp) as (pck & Hpck & _ & Hv & Hh). eauto.
  - intros (Hn & Hparent). split; [exact Hn|]. intros p Hp.
    destruct (Hparent p Hp) as (pck & Hpck & Hv & Hh).
    exists pck. split; [exact Hpck|]. split; [|auto].
    assert (Hparc : Parent (set_Hash (Some sum) cm) = Some p) by (simpl; congruence).
    destruct (Hc2 l _ p Hl2 Hparc) as (pck' & Hpck' & Hi).
    assert (pck' = pck) as -> by congruence. simpl in Hi. congruence.
Qed.

(** X13. In a well linked store [IsValid] panics exactly when the chunk
    has a parent with the index before its own and a difficulty that is
    negative or above 64; it never runs out of fuel. *)
Theorem IsValid_panics_iff l ck h :
  well_linked h -> h !! l = Some ck ->
  (IsValid ck h = Panic <->
   exists p pck, Parent ck = Some p /\ h !! p = Some pck /\
                 int_add (Index pck) 1 = Index ck /\
                 (Difficulty pck < 0 \/ 64 < Difficulty pck)) /\
  IsValid ck h <> OutOfFuel.
Proof.
  intros Hwl Hl.
  destruct (IsValid_run l ck h Hwl Hl) as (pk & Hpk & Hrun). cbv zeta in Hrun.
  destruct (Parent ck) as [p|] eqn:Hpar.
  - destruct Hrun as (ppk & Hppk & Hrun).
    unfold parent_of in Hpk. rewrite Hpar in Hpk.
    destruct (int_add (Index pk) 1 =? Index ck) eqn:Hidx.
    + destruct (pow_check (PoW ppk) (Difficulty pk) (PoW pk)) as [v|] eqn:Hc.
      * destruct Hrun as [h' Hrun]. rewrite Hrun.
        pose proof (pow_check_total _ _ _ _ Hc) as Hd.
        split; [split; [discriminate|] | discriminate].
        intros (p' & pck & [= <-] & Hp' & _ & Hout).
        assert (pck = pk) as -> by congruence. lia.
      * rewrite Hrun. split; [split; [|reflexivity] | discriminate].
        intros _. exists p, pk. split; [reflexivity|]. split; [exact Hpk|].
        split; [now apply Z.eqb_eq|].
        destruct (Z_lt_dec (Difficulty pk) 0); [auto|].
        destruct (Z_lt_dec 64 (Difficulty pk)); [auto|].
        destruct (pow_check_defined (PoW ppk) (Difficulty pk) (PoW pk) ltac:(lia)) as [b Hb].
        congruence.
    + destruct Hrun as [h' Hrun]. rewrite Hrun.
      split; [split; [discriminate|] | discriminate].
      intros (p' & pck & [= <-] & Hp' & Hi & _).
      assert (pck = pk) as -> by congruence.
      apply Z.eqb_eq in Hi. congruence.
  - destruct Hrun as [h' Hrun]. rewrite Hrun.
    split; [split; [discriminate|] | discriminate].
    intros (p' & pck & [=] & _).
Qed.

(** X11. For a chunk whose timestamp cannot be marshalled, [Encode]
    returns nil (the error is dropped) and [GenerateHash] returns the
    SHA-256 of the empty input, whatever the chunk holds. *)
Theorem GenerateHash_of_unencodable_chunk l ck h save :
  h !! l = Some ck -> is_Some (parent_of ck h) ->
  json_time (Timestamp ck) = None ->
  (exists h', Encode ck h = Done (None, h')) /\
  (exists h', GenerateHash (Some l) save h = Done (sum256 [], h')).
Proof.
  intros Hl [pck Hp] Ht. split.
  - eexists. rewrite Encode_run, Hp. unfold marshal. rewrite Ht. reflexivity.
  - destruct (parent_of_cleared_defined l ck h Hl (ex_intro _ pck Hp)) as [pck0 Hp0].
    eexists. rewrite (GenerateHash_run _ _ _ _ Hl). cbv zeta. rewrite Hp0.
    unfold marshal. simpl Timestamp. rewrite Ht. reflexivity.
Qed.

(** X12. After [GenerateHash(true)] returned [sum], calls of
    [GenerateHash] that follow, committing or not, each return [sum], and
    [sum] stays the stored hash. *)
Theorem GenerateHash_repeats_digest l h sum h1 saves :
  GenerateHash (Some l) true h = Done (sum, h1) ->
  exists h2 ck,
    rehash saves (Some l) h1 = Done (repeat sum (List.length saves), h2) /\
    h2 !! l = Some ck /\ Hash ck = Some sum.
Proof.
  intros Hcommit.
  destruct (h !! l) as [c|] eqn:Hl;
    [|unfold GenerateHash, bind, load in Hcommit; rewrite Hl in Hcommit; discriminate].
  rewrite (GenerateHash_run _ _ _ _ Hl) in Hcommit. cbv zeta in Hcommit.
  set (c0 := set_Hash None c) in *. set (h0 := <[l := c0]> h) in *.
  destruct (parent_of c0 h0) as [pck|] eqn:Hp0; [|discriminate].
  injection Hcommit as Hsum Hh1.
  set (c1 := set_Hash (Some sum) c).
  assert (Hinv : h1 !! l = Some c1 /\ parent_of c0 (<[l := c0]> h1) = Some pck).
  { subst h1. rewrite Hsum. split; [apply lookup_insert_eq|].
    rewrite parent_of_cleared_again; [exact Hp0 | apply lookup_insert_eq]. }
  clear Hh1 Hl. revert h1 Hinv.
  induction saves as [|save saves IH]; intros h1 [Hl1 Hp1].
  - exists h1, c1. split; [reflexivity|]. split; [exact Hl1 | reflexivity].
  - simpl rehash.
    assert (Hrun : GenerateHash (Some l) save h1 =
                   Done (sum, <[l := c1]> (with_parent c0 (<[l := c0]> h1)))).
    { rewrite (GenerateHash_run _ _ _ _ Hl1). cbv zeta.
      change (set_Hash None c1) with c0. rewrite Hp1, Hsum. now destruct save. }
    rewrite (bind_Done _ _ _ _ _ Hrun).
    destruct (IH (<[l := c1]> (with_parent c0 (<[l := c0]> h1))))
      as (h2 & ck & Hregen & Hl2 & Hh).
    { split; [apply lookup_insert_eq|].
      rewrite parent_of_cleared_again; [exact Hp1 | apply lookup_insert_eq]. }
    exists h2, ck. rewrite (bind_Done _ _ _ _ _ Hregen). auto.
Qed.

End ValidAfterCommit.

Section Repeat.

Implicit Types (h : heap) (ck c pck : Chunk) (l : loc).

Lemma well_linked_adds h h' : well_linked h -> adds_copies h h' -> well_linked h'.
Proof.
  intros Hwl [Hsub Hnew] l c p Hl' Hp.
  destruct (h !! l) as [c0|] eqn:Hl.
  - pose proof (lookup_weaken _ _ _ _ Hl Hsub). assert (c0 = c) as -> by congruence.
    destruct (Hwl l c p Hl Hp) as [Hne [x Hx]].
    split; [exact Hne|]. exists x. eapply lookup_weaken; eassumption.
  - destruct (Hnew l c Hl' Hl) as [Hnil|(l0 & c0 & Hl0 & Hpar & _)]; [congruence|].
    rewrite <- Hpar in Hp. destruct (Hwl l0 c0 p Hl0 Hp) as [_ [x Hx]].
    split; [congruence|]. exists x. eapply lookup_weaken; eassumption.
Qed.

(** X16. In a well linked store, [IsValid] called again on the chunk, in
    the store the first call left, returns the same verdict. *)
Theorem IsValid_again_same_verdict l ck h b h1 :
  well_linked h -> h !! l = Some ck ->
  IsValid ck h = Done (b, h1) ->
  exists h2, IsValid ck h1 = Done (b, h2).
Proof.
  intros Hwl Hl Hrun0.
  pose proof (IsValid_adds ck h b h1 (known_lookup _ _ _ Hl) Hrun0) as Hadds.
  pose proof (well_linked_adds _ _ Hwl Hadds) as Hwl1.
  destruct Hadds as [Hsub _].
  pose proof (lookup_weaken _ _ _ _ Hl Hsub) as Hl1.
  destruct (IsValid_run l ck h Hwl Hl) as (pk & Hpk & Hrun). cbv zeta in Hrun.
  destruct (IsValid_run l ck h1 Hwl1 Hl1) as (pk1 & Hpk1 & Hrun1). cbv zeta in Hrun1.
  rewrite (parent_of_weaken _ _ _ _ Hpk Hsub) in Hpk1. injection Hpk1 as <-.
  destruct (Parent ck) as [p|].
  - destruct Hrun as (ppk & Hppk & Hrun). destruct Hrun1 as (ppk1 & Hppk1 & Hrun1).
    rewrite (parent_of_weaken _ _ _ _ Hppk Hsub) in Hppk1. injection Hppk1 as <-.
    destruct (int_add (Index pk) 1 =? Index ck).
    + destruct (pow_check _ _ _) as [v|]; [|congruence].
      destruct Hrun as [h' Hrun]. destruct Hrun1 as [h2 Hrun1].
      exists h2. rewrite Hrun1. rewrite Hrun in Hrun0. now injection Hrun0 as <- _.
    + destruct Hrun as [h' Hrun]. destruct Hrun1 as [h2 Hrun1].
      exists h2. rewrite Hrun1. rewrite Hrun in Hrun0. now injection Hrun0 as <- _.
  - destruct Hrun as [h' Hrun]. destruct Hrun1 as [h2 Hrun1].
    exists h2. rewrite Hrun1. rewrite Hrun in Hrun0. now injection Hrun0 as <- _.
Qed.





End Repeat.

(** ** The further properties on the sample stores *)

Section FurtherSamples.

Import Sample.

Lemma chain_linked_singleton l c : Parent c = None -> chain_linked {[ l := c ]}.
Proof.
  intros Hc l' c' p Hl' Hp. apply lookup_singleton_Some in Hl' as [_ <-]. congruence.
Qed.

Lemma chain_linked_pair a b :
  Parent a = None -> Parent b = Some 1%positive -> Index b = int_add (Index a) 1 ->
  chain_linked {[ 1%positive := a; 2%positive := b ]}.
Proof.
  intros Ha Hb Hi l c p Hl Hp.
  apply lookup_insert_Some in Hl as [[<- <-]|[Hne Hl]]; [congruence|].
  apply lookup_singleton_Some in Hl as [<- <-].
  assert (p = 1%positive) as -> by congruence.
  exists a. split; [reflexivity | exact Hi].
Qed.

Lemma fuel_in_range_4 : Z.of_nat 4 <= int_max + 1.
Proof. vm_compute. discriminate. Qed.

Lemma ValidatePoW_returns_iff_difficulty_in_range_witness :
  ((exists b h', ValidatePoW genesis_neg 0 store1 = Done (b, h')) <->
   0 <= Difficulty genesis_neg <= 64) /\
  (ValidatePoW genesis_neg 0 store1 = Panic <->
   Difficulty genesis_neg < 0 \/ 64 < Difficulty genesis_neg) /\
  ValidatePoW genesis_neg 0 store1 <> OutOfFuel.
Proof.
  apply (ValidatePoW_returns_iff_difficulty_in_range genesis_neg 0 store1 zeroChunk).
  reflexivity.
Defined.

Lemma ValidatePoW_difficulty_monotone_witness :
  exists h1, ValidatePoW genesis1 563 store1 = Done (true, h1).
Proof.
  apply (ValidatePoW_difficulty_monotone genesis2 genesis1 563 store1).
  - reflexivity.
  - simpl. lia.
  - eexists. vm_compute. reflexivity.
Defined.

Lemma Mine_result_is_least_nonce_witness :
  0 <= 3 < Z.of_nat 4 /\
  (exists h1, ValidatePoW genesis1 3 store1 = Done (true, h1)) /\
  (forall m, 0 <= m < 3 -> exists h1, ValidatePoW genesis1 m store1 = Done (false, h1)) /\
  store_mined4 !! 1%positive = Some (set_PoW 3 genesis1) /\
  (forall l' c', l' <> 1%positive -> store1 !! l' = Some c' -> store_mined4 !! l' = Some c').
Proof.
  apply (Mine_result_is_least_nonce 1%positive genesis1 store1 4 3 store_mined4).
  - reflexivity.
  - vm_compute. discriminate.
  - vm_compute. reflexivity.
Defined.

Lemma Mine_out_of_fuel_iff_witness :
  Mine 3 (Some 1%positive) store1 = OutOfFuel <->
  (forall m, 0 <= m < Z.of_nat 3 ->
             exists h1, ValidatePoW genesis1 m store1 = Done (false, h1)).
Proof.
  apply (Mine_out_of_fuel_iff 1%positive genesis1 store1 zeroChunk 3).
  - reflexivity.
  - reflexivity.
  - simpl. lia.
  - vm_compute. discriminate.
Defined.

Lemma Mine_again_same_nonce_witness :
  exists h2, Mine 4 (Some 1%positive) store_mined4 = Done (3, h2) /\
             h2 !! 1%positive = store_mined4 !! 1%positive.
Proof.
  apply (Mine_again_same_nonce 1%positive genesis1 store1 4 3 store_mined4).
  - apply well_linked_singleton. reflexivity.
  - reflexivity.
  - vm_compute. discriminate.
  - vm_compute. reflexivity.
Defined.

Lemma IsValid_true_only_if_mined_and_hashed_witness :
  0 < PoW child_done /\ exists bs, Hash child_done = Some bs /\ List.length bs = 32%nat.
Proof.
  apply (IsValid_true_only_if_mined_and_hashed child_done chain chain_checked).
  vm_compute. reflexivity.
Defined.

Lemma New_links_unmined_chunk_witness :
  exists l c,
    New (Some 2%positive) 1 "c" t0 chain = Done (l, <[l := c]> chain) /\
    chain !! l = None /\
    Parent c = Some 2%positive /\ Hash c = None /\ PoW c = 0 /\ Difficulty c = 1 /\
    Data c = "c"%string /\ Timestamp c = t0 /\
    (Some 2%positive = None -> Index c = 0) /\
    (forall l0 pck, Some 2%positive = Some l0 -> chain !! l0 = Some pck ->
                    Index c = int_add (Index pck) 1) /\
    chain_linked (<[l := c]> chain) /\
    (forall h', IsValid c (<[l := c]> chain) <> Done (true, h')).
Proof.
  apply (New_links_unmined_chunk (Some 2%positive) 1 "c" t0 chain).
  - apply chain_linked_pair; reflexivity.
  - intros l0 [= <-]. exists child_done. reflexivity.
Defined.



Lemma Mine_zero_leaves_chunk_invalid_witness :
  IsValid (set_Hash (Some child0_hash) child0) store29_hashed <> Done (true, store29_hashed).
Proof.
  apply (Mine_zero_leaves_chunk_invalid 1 2%positive store29 store29 true
           child0_hash store29_hashed).
  - vm_compute. reflexivity.
  - vm_compute. reflexivity.
  - vm_compute. reflexivity.
Defined.

Lemma committed_chunk_valid_iff_witness :
  store_hashed !! 1%positive = Some (set_Hash (Some genesis_hash) genesis_mined) /\
  ((exists h2, IsValid (set_Hash (Some genesis_hash) genesis_mined) store_hashed =
               Done (true, h2)) <->
   (IsMined genesis_mined = true /\
    forall p, Parent genesis_mined = Some p ->
      exists pck, store_hashed !! p = Some pck /\
        int_add (Index pck) 1 = Index genesis_mined /\
        (exists hx, ValidatePoW pck (PoW pck) store_hashed = Done (true, hx)) /\
        (exists s hx, GenerateHash (Some p) false store_hashed = Done (s, hx) /\
                      bytes_Equal (Some s) (Hash pck) = true))).
Proof.
  apply (committed_chunk_valid_iff 1%positive genesis_mined store_mined
           genesis_hash store_hashed).
  - apply well_linked_singleton. reflexivity.
  - reflexivity.
  - vm_compute. reflexivity.
Defined.

Lemma new_mined_hashed_chunk_valid_iff_witness :
  exists ck,
    store_child_hashed !! 2%positive = Some ck /\ Parent ck = Some 1%positive /\
    PoW ck = 9 /\ Hash ck = Some child_hash /\ Difficulty ck = 1 /\ Data ck = "b"%string /\
    ((exists h3, IsValid ck store_child_hashed = Done (true, h3)) <->
     (0 < 9 /\
      forall p, Some 1%positive = Some p ->
        exists pck, store_child_hashed !! p = Some pck /\
          (exists hx, ValidatePoW pck (PoW pck) store_child_hashed = Done (true, hx)) /\
          (exists s hx, GenerateHash (Some p) false store_child_hashed = Done (s, hx) /\
                        bytes_Equal (Some s) (Hash pck) = true))).
Proof.
  apply (new_mined_hashed_chunk_valid_iff (Some 1%positive) 1 "b" t0 10
           store_genesis_done 2%positive store_child_new 9 store_child_mined
           child_hash store_child_hashed).
  - apply chain_linked_singleton. reflexivity.
  - vm_compute. reflexivity.
  - vm_compute. reflexivity.
  - vm_compute. reflexivity.
Defined.

Lemma IsValid_panics_iff_witness :
  (IsValid child65 store_child65 = Panic <->
   exists p pck, Parent child65 = Some p /\ store_child65 !! p = Some pck /\
                 int_add (Index pck) 1 = Index child65 /\
                 (Difficulty pck < 0 \/ 64 < Difficulty pck)) /\
  IsValid child65 store_child65 <> OutOfFuel.
Proof.
  apply (IsValid_panics_iff 2%positive child65 store_child65).
  - apply well_linked_pair; reflexivity.
  - reflexivity.
Defined.

Lemma GenerateHash_of_unencodable_chunk_witness :
  (exists h', Encode late store_late = Done (None, h')) /\
  (exists h', GenerateHash (Some 1%positive) true store_late = Done (sum256 [], h')).
Proof.
  apply (GenerateHash_of_unencodable_chunk 1%positive late store_late true).
  - reflexivity.
  - exists zeroChunk. reflexivity.
  - reflexivity.
Defined.

Lemma GenerateHash_repeats_digest_witness :
  exists h2 ck,
    rehash [true; false; true] (Some 1%positive) store_hashed =
      Done (repeat genesis_hash (List.length [true; false; true]), h2) /\
    h2 !! 1%positive = Some ck /\ Hash ck = Some genesis_hash.
Proof.
  apply (GenerateHash_repeats_digest 1%positive store_mined genesis_hash store_hashed
           [true; false; true]).
  vm_compute. reflexivity.
Defined.

Lemma IsValid_again_same_verdict_witness :
  exists h2, IsValid child_done chain_checked = Done (true, h2).
Proof.
  apply (IsValid_again_same_verdict 2%positive child_done chain true chain_checked).
  - apply well_linked_pair; reflexivity.
  - reflexivity.
  - vm_compute. reflexivity.
Defined.


End FurtherSamples.
